(** * The real-time synchronisation client ([useWebSocket])

    A shallow embedding of the React hook [useWebSocket]: the hook's refs
    and state, the browser objects it drives (WebSocket handles, timers,
    animation-frame callbacks) and the query cache it writes, as one
    explicit state threaded through a small state-and-exception monad.
    Every closure of the hook is one definition below, under the name it
    has in the source. *)

From stdpp Require Import gmap strings list fin_maps pretty.

Set Warnings "-register-all".

Open Scope Z_scope.

(** ** JSON values

    What [JSON.parse] can return.  Numbers are kept as integers: the hook
    never computes with them, it only stores and compares them. *)

Inductive jsval :=
  | JNull
  | JBool (b : bool)
  | JNum (n : Z)
  | JStr (s : string)
  | JArr (xs : list jsval)
  | JObj (fields : gmap string jsval).

(** Own enumerable properties of a value, which is what object spread
    copies: the fields of an object, the indices of an array or of a string,
    nothing for [null], booleans and numbers. *)
Definition index_props (xs : list jsval) : gmap string jsval :=
  list_to_map (imap (λ i x, (pretty i, x)) xs).

Definition char_values (s : string) : list jsval :=
  (λ c, JStr (String c EmptyString)) <$> String.list_ascii_of_string s.

Definition own_props (v : jsval) : gmap string jsval :=
  match v with
  | JObj fields => fields
  | JArr xs => index_props xs
  | JStr s => index_props (char_values s)
  | JNull | JBool _ | JNum _ => ∅
  end.

(** [{...acc, ...v}] where [v] may be [undefined]. *)
Definition spread (v : option jsval) (acc : gmap string jsval) : gmap string jsval :=
  match v with
  | Some v => own_props v ∪ acc
  | None => acc
  end.

(** [x == null]: true of [null] and of [undefined]. *)
Definition nullish (v : option jsval) : bool :=
  match v with
  | None | Some JNull => true
  | Some _ => false
  end.

(** ** Values of type [unknown]

    [sendMessage] takes a [Record<string, unknown>].  The hook does one
    thing with it, hand it to [JSON.stringify]; so such a value is plain
    data, or one of the two things [JSON.stringify] rejects: a value that
    holds a BigInt, or one that reaches itself through its properties. *)
Inductive unknown :=
  | Data (v : jsval)
  | HoldsBigInt
  | Cyclic.

(** ** The platform

    Library functions and page globals the hook calls but does not define.
    [JSON.stringify] serialises plain data and raises a [TypeError] on a
    BigInt and on a cyclic structure. *)
Class Runtime := {
  location_protocol : string;                  (* window.location.protocol *)
  location_host : string;                      (* window.location.host *)
  JSON_parse : string → option jsval;          (* None: SyntaxError thrown *)
  JSON_stringify : unknown → option string;    (* None: TypeError thrown *)
  hashKey : list jsval → string;       (* the query cache indexes by key hash *)
  JSON_stringify_data : ∀ v, is_Some (JSON_stringify (Data v));
  JSON_stringify_bigint : JSON_stringify HoldsBigInt = None;
  JSON_stringify_cyclic : JSON_stringify Cyclic = None;
}.

(** ** Browser objects *)

Inductive ReadyState := CONNECTING | OPEN | CLOSING | CLOSED.

Global Instance ReadyState_eq_dec : EqDecision ReadyState.
Proof. solve_decision. Defined.

(** One [WebSocket] built by [connect], together with the [pingInterval]
    variable that the handlers of that call close over. *)
Record WebSocket := {
  url : string;
  readyState : ReadyState;
  sent : list string;
  pingInterval : option nat;
}.

Inductive TimerHandler :=
  | ReconnectTimer          (* () => connect() *)
  | PingTimer (ws : nat)    (* the keepalive callback of handle [ws] *)
  | FlushTimer.             (* the coalescing flush *)

Global Instance TimerHandler_eq_dec : EqDecision TimerHandler.
Proof. solve_decision. Defined.

Record Timer := {
  handler : TimerHandler;
  due : Z;
  interval : option Z;      (* Some p for setInterval *)
}.

(** ** The state *)

Record State := {
  (* refs and state of the hook *)
  wsRef : option nat;
  reconnectTimeoutRef : option nat;
  isConnected : bool;
  pendingInvalidations : list string;
  invalidationTimeoutRef : option nat;
  (* browser *)
  now : Z;
  sockets : list WebSocket;
  timers : gmap nat Timer;
  nextTimerId : nat;
  rafQueue : list (list string);
  (* query client *)
  queryData : gmap string (gmap string jsval);
  invalidated : list string;
  (* whether the consuming component is mounted *)
  attached : bool;
}.

Definition with_wsRef (v : option nat) (st : State) : State :=
  {| wsRef := v; reconnectTimeoutRef := reconnectTimeoutRef st;
     isConnected := isConnected st; pendingInvalidations := pendingInvalidations st;
     invalidationTimeoutRef := invalidationTimeoutRef st; now := now st;
     sockets := sockets st; timers := timers st; nextTimerId := nextTimerId st;
     rafQueue := rafQueue st; queryData := queryData st;
     invalidated := invalidated st; attached := attached st |}.

Definition with_reconnectTimeoutRef (v : option nat) (st : State) : State :=
  {| wsRef := wsRef st; reconnectTimeoutRef := v;
     isConnected := isConnected st; pendingInvalidations := pendingInvalidations st;
     invalidationTimeoutRef := invalidationTimeoutRef st; now := now st;
     sockets := sockets st; timers := timers st; nextTimerId := nextTimerId st;
     rafQueue := rafQueue st; queryData := queryData st;
     invalidated := invalidated st; attached := attached st |}.

Definition with_isConnected (v : bool) (st : State) : State :=
  {| wsRef := wsRef st; reconnectTimeoutRef := reconnectTimeoutRef st;
     isConnected := v; pendingInvalidations := pendingInvalidations st;
     invalidationTimeoutRef := invalidationTimeoutRef st; now := now st;
     sockets := sockets st; timers := timers st; nextTimerId := nextTimerId st;
     rafQueue := rafQueue st; queryData := queryData st;
     invalidated := invalidated st; attached := attached st |}.

Definition with_pendingInvalidations (v : list string) (st : State) : State :=
  {| wsRef := wsRef st; reconnectTimeoutRef := reconnectTimeoutRef st;
     isConnected := isConnected st; pendingInvalidations := v;
     invalidationTimeoutRef := invalidationTimeoutRef st; now := now st;
     sockets := sockets st; timers := timers st; nextTimerId := nextTimerId st;
     rafQueue := rafQueue st; queryData := queryData st;
     invalidated := invalidated st; attached := attached st |}.

Definition with_invalidationTimeoutRef (v : option nat) (st : State) : State :=
  {| wsRef := wsRef st; reconnectTimeoutRef := reconnectTimeoutRef st;
     isConnected := isConnected st; pendingInvalidations := pendingInvalidations st;
     invalidationTimeoutRef := v; now := now st;
     sockets := sockets st; timers := timers st; nextTimerId := nextTimerId st;
     rafQueue := rafQueue st; queryData := queryData st;
     invalidated := invalidated st; attached := attached st |}.

Definition with_now (v : Z) (st : State) : State :=
  {| wsRef := wsRef st; reconnectTimeoutRef := reconnectTimeoutRef st;
     isConnected := isConnected st; pendingInvalidations := pendingInvalidations st;
     invalidationTimeoutRef := invalidationTimeoutRef st; now := v;
     sockets := sockets st; timers := timers st; nextTimerId := nextTimerId st;
     rafQueue := rafQueue st; queryData := queryData st;
     invalidated := invalidated st; attached := attached st |}.

Definition with_sockets (v : list WebSocket) (st : State) : State :=
  {| wsRef := wsRef st; reconnectTimeoutRef := reconnectTimeoutRef st;
     isConnected := isConnected st; pendingInvalidations := pendingInvalidations st;
     invalidationTimeoutRef := invalidationTimeoutRef st; now := now st;
     sockets := v; timers := timers st; nextTimerId := nextTimerId st;
     rafQueue := rafQueue st; queryData := queryData st;
     invalidated := invalidated st; attached := attached st |}.

Definition with_timers (v : gmap nat Timer) (st : State) : State :=
  {| wsRef := wsRef st; reconnectTimeoutRef := reconnectTimeoutRef st;
     isConnected := isConnected st; pendingInvalidations := pendingInvalidations st;
     invalidationTimeoutRef := invalidationTimeoutRef st; now := now st;
     sockets := sockets st; timers := v; nextTimerId := nextTimerId st;
     rafQueue := rafQueue st; queryData := queryData st;
     invalidated := invalidated st; attached := attached st |}.

Definition with_nextTimerId (v : nat) (st : State) : State :=
  {| wsRef := wsRef st; reconnectTimeoutRef := reconnectTimeoutRef st;
     isConnected := isConnected st; pendingInvalidations := pendingInvalidations st;
     invalidationTimeoutRef := invalidationTimeoutRef st; now := now st;
     sockets := sockets st; timers := timers st; nextTimerId := v;
     rafQueue := rafQueue st; queryData := queryData st;
     invalidated := invalidated st; attached := attached st |}.

Definition with_rafQueue (v : list (list string)) (st : State) : State :=
  {| wsRef := wsRef st; reconnectTimeoutRef := reconnectTimeoutRef st;
     isConnected := isConnected st; pendingInvalidations := pendingInvalidations st;
     invalidationTimeoutRef := invalidationTimeoutRef st; now := now st;
     sockets := sockets st; timers := timers st; nextTimerId := nextTimerId st;
     rafQueue := v; queryData := queryData st;
     invalidated := invalidated st; attached := attached st |}.

Definition with_queryData (v : gmap string (gmap string jsval)) (st : State) : State :=
  {| wsRef := wsRef st; reconnectTimeoutRef := reconnectTimeoutRef st;
     isConnected := isConnected st; pendingInvalidations := pendingInvalidations st;
     invalidationTimeoutRef := invalidationTimeoutRef st; now := now st;
     sockets := sockets st; timers := timers st; nextTimerId := nextTimerId st;
     rafQueue := rafQueue st; queryData := v;
     invalidated := invalidated st; attached := attached st |}.

Definition with_invalidated (v : list string) (st : State) : State :=
  {| wsRef := wsRef st; reconnectTimeoutRef := reconnectTimeoutRef st;
     isConnected := isConnected st; pendingInvalidations := pendingInvalidations st;
     invalidationTimeoutRef := invalidationTimeoutRef st; now := now st;
     sockets := sockets st; timers := timers st; nextTimerId := nextTimerId st;
     rafQueue := rafQueue st; queryData := queryData st;
     invalidated := v; attached := attached st |}.

Definition with_attached (v : bool) (st : State) : State :=
  {| wsRef := wsRef st; reconnectTimeoutRef := reconnectTimeoutRef st;
     isConnected := isConnected st; pendingInvalidations := pendingInvalidations st;
     invalidationTimeoutRef := invalidationTimeoutRef st; now := now st;
     sockets := sockets st; timers := timers st; nextTimerId := nextTimerId st;
     rafQueue := rafQueue st; queryData := queryData st;
     invalidated := invalidated st; attached := v |}.

(** ** State and exceptions

    A JavaScript exception leaves the mutations made before it in place, so
    the state is returned on both outcomes. *)

Inductive JsError := SyntaxError | TypeError | InvalidStateError.

Inductive Completion (A : Type) :=
  | Normal (a : A)
  | Throw (e : JsError).
Arguments Normal {A} a.
Arguments Throw {A} e.

Definition M (A : Type) : Type := State → Completion A * State.

Definition ret {A} (a : A) : M A := λ st, (Normal a, st).

Definition bind {A B} (m : M A) (k : A → M B) : M B :=
  λ st, match m st with
        | (Normal a, st') => k a st'
        | (Throw e, st') => (Throw e, st')
        end.

Definition throw {A} (e : JsError) : M A := λ st, (Throw e, st).

Definition try_catch {A} (body : M A) (on_error : JsError → M A) : M A :=
  λ st, match body st with
        | (Normal a, st') => (Normal a, st')
        | (Throw e, st') => on_error e st'
        end.

Definition gets {A} (f : State → A) : M A := λ st, (Normal (f st), st).

Definition modify (f : State → State) : M unit := λ st, (Normal tt, f st).

(** The state a handler leaves behind, whatever its outcome. *)
Definition exec {A} (m : M A) (st : State) : State := (m st).2.

Declare Scope js_scope.
Delimit Scope js_scope with js.
Notation "x <- m ;; k" := (bind m (fun x => k))
  (at level 100, m at next level, k at level 200, right associativity) : js_scope.
Notation "m ;; k" := (bind m (fun _ => k))
  (at level 100, k at level 200, right associativity) : js_scope.
Open Scope js_scope.

(** [if (ref) ...] on a timer id: [null] and [0] are falsy. *)
Definition truthy (r : option nat) : bool :=
  match r with
  | Some (S _) => true
  | Some O | None => false
  end.

Definition when_truthy (r : option nat) (k : nat → M unit) : M unit :=
  match r with
  | Some (S n) => k (S n)
  | Some O | None => ret tt
  end.

(** ** Browser API *)

Definition setTimeout (h : TimerHandler) (delay : Z) : M nat :=
  λ st, let id := nextTimerId st in
        (Normal id,
         with_nextTimerId (S id)
           (with_timers (<[id := {| handler := h; due := now st + delay;
                                    interval := None |}]> (timers st)) st)).

Definition setInterval (h : TimerHandler) (delay : Z) : M nat :=
  λ st, let id := nextTimerId st in
        (Normal id,
         with_nextTimerId (S id)
           (with_timers (<[id := {| handler := h; due := now st + delay;
                                    interval := Some delay |}]> (timers st)) st)).

(** [clearTimeout] and [clearInterval] share one pool of ids. *)
Definition clearTimeout (id : nat) : M unit :=
  modify (λ st, with_timers (delete id (timers st)) st).

Definition clearInterval (id : nat) : M unit := clearTimeout id.

Definition requestAnimationFrame (keys : list string) : M unit :=
  modify (λ st, with_rafQueue (rafQueue st ++ [keys]) st).

Definition new_WebSocket (u : string) : M nat :=
  λ st, (Normal (length (sockets st)),
         with_sockets (sockets st ++ [{| url := u; readyState := CONNECTING;
                                         sent := []; pingInterval := None |}]) st).

Definition update_socket (ws : nat) (f : WebSocket → WebSocket) : M unit :=
  modify (λ st, with_sockets (alter f ws (sockets st)) st).

Definition set_readyState (r : ReadyState) (s : WebSocket) : WebSocket :=
  {| url := url s; readyState := r; sent := sent s; pingInterval := pingInterval s |}.

Definition push_sent (data : string) (s : WebSocket) : WebSocket :=
  {| url := url s; readyState := readyState s; sent := sent s ++ [data];
     pingInterval := pingInterval s |}.

Definition set_pingInterval (p : option nat) (s : WebSocket) : WebSocket :=
  {| url := url s; readyState := readyState s; sent := sent s; pingInterval := p |}.

Definition socket_readyState (ws : nat) (st : State) : option ReadyState :=
  readyState <$> sockets st !! ws.

(** [ws.send(data)]: throws while connecting, transmits while open, and is
    discarded once the handle is closing or closed. *)
Definition ws_send (ws : nat) (data : string) : M unit :=
  rs <- gets (socket_readyState ws) ;;
  match rs with
  | Some CONNECTING => throw InvalidStateError
  | Some OPEN => update_socket ws (push_sent data)
  | _ => ret tt
  end.

(** [ws.close()]: starts closing; the close event is delivered later. *)
Definition start_closing (s : WebSocket) : WebSocket :=
  match readyState s with
  | CONNECTING | OPEN => set_readyState CLOSING s
  | CLOSING | CLOSED => s
  end.

Definition ws_close (ws : nat) : M unit := update_socket ws start_closing.

(** ** Query client *)

Definition setQueryData (key : list jsval)
    (updater : option (gmap string jsval) → gmap string jsval) `{Runtime} : M unit :=
  modify (λ st, with_queryData
                  (<[hashKey key := updater (queryData st !! hashKey key)]> (queryData st)) st).

Definition invalidateQueries (key : string) : M unit :=
  modify (λ st, with_invalidated (invalidated st ++ [key]) st).

(** ** The hook *)

Section useWebSocket.
Context `{Runtime}.

(** [wsRef.current?.readyState] *)
Definition current_readyState (st : State) : option ReadyState :=
  match wsRef st with
  | Some ws => socket_readyState ws st
  | None => None
  end.

Definition wsUrl : string :=
  let protocol := if bool_decide (location_protocol = "https:") then "wss:" else "ws:" in
  protocol +:+ "//" +:+ location_host +:+ "/api/v1/ws".

Definition connect : M unit :=
  rs <- gets current_readyState ;;
  if bool_decide (rs = Some OPEN) then ret tt
  else
    ws <- new_WebSocket wsUrl ;;
    modify (with_wsRef (Some ws)).

Definition ping_message : jsval := JObj {[ "type" := JStr "ping" ]}.

(** A call of [JSON.stringify]: the text, or the [TypeError]. *)
Definition call_JSON_stringify (value : unknown) : M string :=
  match JSON_stringify value with
  | Some text => ret text
  | None => throw TypeError
  end.

(** The callback given to [setInterval] in [ws.onopen]. *)
Definition ping_tick (ws : nat) : M unit :=
  rs <- gets (socket_readyState ws) ;;
  if bool_decide (rs = Some OPEN) then
    frame <- call_JSON_stringify (Data ping_message) ;;
    ws_send ws frame
  else ret tt.

Definition ws_onopen (ws : nat) : M unit :=
  modify (with_isConnected true) ;;
  id <- setInterval (PingTimer ws) 30000 ;;
  update_socket ws (set_pingInterval (Some id)).

Definition ws_onclose (ws : nat) : M unit :=
  p <- gets (λ st, sockets st !! ws ≫= pingInterval) ;;
  when_truthy p (λ id,
    clearInterval id ;;
    update_socket ws (set_pingInterval None)) ;;
  modify (with_isConnected false) ;;
  modify (with_wsRef None) ;;
  id <- setTimeout ReconnectTimer 3000 ;;
  modify (with_reconnectTimeoutRef (Some id)).

Definition ws_onerror (ws : nat) : M unit := ws_close ws.

(** [Set.prototype.add] on an insertion-ordered set. *)
Definition set_add (k : string) (s : list string) : list string :=
  if bool_decide (k ∈ s) then s else s ++ [k].

(** The callback given to [requestAnimationFrame]. *)
Fixpoint invalidate_keys (keys : list string) : M unit :=
  match keys with
  | [] => ret tt
  | key :: rest => invalidateQueries key ;; invalidate_keys rest
  end.

(** The callback given to [setTimeout] in [debouncedInvalidate]. *)
Definition flush_pending : M unit :=
  keys <- gets pendingInvalidations ;;
  modify (with_pendingInvalidations []) ;;
  modify (with_invalidationTimeoutRef None) ;;
  requestAnimationFrame keys.

Definition debouncedInvalidate (queryKey : string) : M unit :=
  modify (λ st, with_pendingInvalidations (set_add queryKey (pendingInvalidations st)) st) ;;
  r <- gets invalidationTimeoutRef ;;
  when_truthy r clearTimeout ;;
  id <- setTimeout FlushTimer 100 ;;
  modify (with_invalidationTimeoutRef (Some id)).

(** [message.name]: a [TypeError] on [null]; the three names read by the
    hook are defined on no prototype, so own properties decide. *)
Definition get_prop (message : jsval) (name : string) : M (option jsval) :=
  match message with
  | JNull => throw TypeError
  | _ => ret (own_props message !! name)
  end.

(** The updater given to [setQueryData] for a [printer_status] frame. *)
Definition merge_printer_status (data : option jsval)
    (old : option (gmap string jsval)) : gmap string jsval :=
  let merged := spread data (default ∅ old) in
  let old_signal := old ≫= (λ o, o !! "wifi_signal") in
  if nullish (merged !! "wifi_signal") && negb (nullish old_signal) then
    match old_signal with
    | Some w => <["wifi_signal" := w]> merged
    | None => merged
    end
  else merged.

Definition handleMessage (message : jsval) : M unit :=
  ty <- get_prop message "type" ;;
  match ty with
  | Some (JStr t) =>
      if bool_decide (t = "printer_status") then
        printer_id <- get_prop message "printer_id" ;;
        match printer_id with
        | Some id =>
            data <- get_prop message "data" ;;
            setQueryData [JStr "printerStatus"; id] (merge_printer_status data)
        | None => ret tt
        end
      else if bool_decide (t = "print_complete") then
        debouncedInvalidate "archives" ;;
        debouncedInvalidate "archiveStats"
      else if bool_decide (t = "archive_created") then
        debouncedInvalidate "archives" ;;
        debouncedInvalidate "archiveStats"
      else if bool_decide (t = "archive_updated") then
        debouncedInvalidate "archives"
      else if bool_decide (t = "pong") then
        ret tt
      else ret tt
  | _ => ret tt
  end.

Definition ws_onmessage (data : string) : M unit :=
  try_catch
    (match JSON_parse data with
     | Some message => handleMessage message
     | None => throw SyntaxError
     end)
    (λ _, ret tt).

(** The function returned by the effect. *)
Definition cleanup : M unit :=
  r <- gets reconnectTimeoutRef ;;
  when_truthy r clearTimeout ;;
  i <- gets invalidationTimeoutRef ;;
  when_truthy i clearTimeout ;;
  w <- gets wsRef ;;
  match w with
  | Some ws => ws_close ws
  | None => ret tt
  end.

Definition sendMessage (message : unknown) : M unit :=
  rs <- gets current_readyState ;;
  if bool_decide (rs = Some OPEN) then
    w <- gets wsRef ;;
    match w with
    | Some ws =>
        frame <- call_JSON_stringify message ;;
        ws_send ws frame
    | None => throw TypeError
    end
  else ret tt.

(** ** The environment

    The hook is driven by the browser and by React: transport events on a
    handle, timers falling due, animation frames, the consumer calling
    [sendMessage], and the component unmounting.  Time passes between
    events; a timer runs at the instant it is due. *)

Inductive Event :=
  | SockOpen (ws : nat)
  | SockMessage (ws : nat) (data : string)
  | SockError (ws : nat)
  | SockClose (ws : nat)
  | TimerFire (id : nat)
  | AnimationFrame
  | Advance (dt : Z)
  | SendMessage (message : unknown)
  | Unmount.

Definition run_timer (id : nat) (t : Timer) : M unit :=
  match interval t with
  | Some p =>
      modify (λ st, with_timers (<[id := {| handler := handler t; due := due t + p;
                                            interval := Some p |}]> (timers st)) st)
  | None => clearTimeout id
  end ;;
  match handler t with
  | ReconnectTimer => connect
  | PingTimer ws => ping_tick ws
  | FlushTimer => flush_pending
  end.

Fixpoint run_frame (callbacks : list (list string)) : M unit :=
  match callbacks with
  | [] => ret tt
  | keys :: rest => invalidate_keys keys ;; run_frame rest
  end.

Definition animation_frame : M unit :=
  callbacks <- gets rafQueue ;;
  modify (with_rafQueue []) ;;
  run_frame callbacks.

Definition no_timer_before (t : Z) (st : State) : Prop :=
  map_Forall (λ _ tm, t ≤ due tm) (timers st).

(** The clock moves on by [dt]; it cannot pass a timer that is due. *)
Definition advance (dt : Z) (st : State) : option State :=
  if bool_decide (0 ≤ dt ∧ no_timer_before (now st + dt) st)
  then Some (with_now (now st + dt) st)
  else None.

(** [None]: the environment cannot produce this event in this state. *)
Definition step (e : Event) (st : State) : option State :=
  match e with
  | SockOpen ws =>
      if bool_decide (socket_readyState ws st = Some CONNECTING)
      then Some (exec (update_socket ws (set_readyState OPEN) ;; ws_onopen ws) st)
      else None
  | SockMessage ws data =>
      if bool_decide (socket_readyState ws st = Some OPEN)
      then Some (exec (ws_onmessage data) st)
      else None
  | SockError ws =>
      match socket_readyState ws st with
      | Some CONNECTING | Some OPEN | Some CLOSING => Some (exec (ws_onerror ws) st)
      | _ => None
      end
  | SockClose ws =>
      match socket_readyState ws st with
      | Some CONNECTING | Some OPEN | Some CLOSING =>
          Some (exec (update_socket ws (set_readyState CLOSED) ;; ws_onclose ws) st)
      | _ => None
      end
  | TimerFire id =>
      match timers st !! id with
      | Some t => if bool_decide (due t = now st) then Some (exec (run_timer id t) st) else None
      | None => None
      end
  | AnimationFrame => Some (exec animation_frame st)
  | Advance dt => advance dt st
  | SendMessage message =>
      if attached st then Some (exec (sendMessage message) st) else None
  | Unmount =>
      if attached st then Some (with_attached false (exec cleanup st)) else None
  end.

Fixpoint run (tr : list Event) (st : State) : option State :=
  match tr with
  | [] => Some st
  | e :: rest =>
      match step e st with
      | Some st' => run rest st'
      | None => None
      end
  end.

(** The state before the effect runs, and after it: [connect()] at mount. *)
Definition fresh : State :=
  {| wsRef := None; reconnectTimeoutRef := None; isConnected := false;
     pendingInvalidations := []; invalidationTimeoutRef := None;
     now := 0; sockets := []; timers := ∅; nextTimerId := 1; rafQueue := [];
     queryData := ∅; invalidated := []; attached := true |}.

Definition mount : State := exec connect fresh.

End useWebSocket.

(** ** Vocabulary of the specification *)

(** From the specification: the shallow union of snapshot [S] and payload
    [P], read at one field, the payload winning. *)
Definition shallow_union_field (S P : gmap string jsval) (field : string) : option jsval :=
  match P !! field with
  | Some v => Some v
  | None => S !! field
  end.

(** From the specification: the merged snapshot read at one field.  It is
    the union, except that a null or absent [wifi_signal] gives way to the
    non-null value the old snapshot held. *)
Definition merged_field (S P : gmap string jsval) (field : string) : option jsval :=
  if bool_decide (field = "wifi_signal")
     && nullish (shallow_union_field S P field)
     && negb (nullish (S !! field))
  then S !! field
  else shallow_union_field S P field.

(** The type discriminators the router knows. *)
Definition recognized_types : list string :=
  ["printer_status"; "print_complete"; "archive_created"; "archive_updated"; "pong"].

(** The discriminator of a decoded frame, when it has one. *)
Definition message_type (message : jsval) : option string :=
  match own_props message !! "type" with
  | Some (JStr t) => Some t
  | _ => None
  end.

(** What has gone out on each handle so far. *)
Definition frames_out (st : State) : list (list string) := sent <$> sockets st.

(** A handle is live while it is connecting or open. *)
Definition live (s : WebSocket) : Prop :=
  readyState s = CONNECTING ∨ readyState s = OPEN.

(** A [printer_status] frame for printer [id] carrying payload [P]. *)
Definition status_frame (id : jsval) (P : gmap string jsval) : jsval :=
  JObj {[ "type" := JStr "printer_status"; "printer_id" := id; "data" := JObj P ]}.

(** ** Invariant of the reachable states

    Timer ids are positive and fresh; the only handle that is not closed is
    the one [wsRef] holds; a reconnect is pending only while [wsRef] is
    empty; the refs name timers of their own kind; a handle owns a keepalive
    timer from its open event to its close event. *)
Record Inv (st : State) : Prop := {
  inv_next : (0 < nextTimerId st)%nat;
  inv_timer_ids : ∀ id t, timers st !! id = Some t → (0 < id < nextTimerId st)%nat;
  inv_current : ∀ i s, sockets st !! i = Some s → readyState s ≠ CLOSED → wsRef st = Some i;
  inv_reconnect : ∀ id t, timers st !! id = Some t → handler t = ReconnectTimer →
      wsRef st = None ∧ reconnectTimeoutRef st = Some id ∧ interval t = None;
  inv_reconnect_ref : ∀ id, reconnectTimeoutRef st = Some id →
      (id < nextTimerId st)%nat ∧ ∀ t, timers st !! id = Some t → handler t = ReconnectTimer;
  inv_flush : ∀ id t, timers st !! id = Some t → handler t = FlushTimer →
      invalidationTimeoutRef st = Some id ∧ interval t = None;
  inv_flush_ref : ∀ id, invalidationTimeoutRef st = Some id →
      (id < nextTimerId st)%nat ∧ ∀ t, timers st !! id = Some t → handler t = FlushTimer;
  inv_ping : ∀ i s id, sockets st !! i = Some s → pingInterval s = Some id →
      (readyState s = OPEN ∨ readyState s = CLOSING) ∧
      ∃ d, timers st !! id = Some {| handler := PingTimer i; due := d; interval := Some 30000 |}
           ∧ now st ≤ d ≤ now st + 30000;
  inv_open : ∀ i s, sockets st !! i = Some s → readyState s = OPEN → is_Some (pingInterval s);
  inv_ping_owner : ∀ id t i, timers st !! id = Some t → handler t = PingTimer i →
      ∃ s, sockets st !! i = Some s ∧ pingInterval s = Some id;
}.

(** Two states that agree on everything the invariant reads. *)
Definition same_core (a b : State) : Prop :=
  wsRef a = wsRef b ∧ reconnectTimeoutRef a = reconnectTimeoutRef b
  ∧ invalidationTimeoutRef a = invalidationTimeoutRef b ∧ now a = now b
  ∧ sockets a = sockets b ∧ timers a = timers b ∧ nextTimerId a = nextTimerId b.

(** [debouncedInvalidate] after the old timer is cleared: a fresh flush
    timer, 100 ms ahead. *)
Definition arm_flush (st : State) : State :=
  with_invalidationTimeoutRef (Some (nextTimerId st))
    (with_nextTimerId (S (nextTimerId st))
       (with_timers (<[nextTimerId st := {| handler := FlushTimer; due := now st + 100;
                                            interval := None |}]> (timers st)) st)).

(** What the close event makes of handle [ws], whose record was [x]. *)
Definition close_socket (s : WebSocket) : WebSocket :=
  set_pingInterval None (set_readyState CLOSED s).

Definition closed_state (ws : nat) (x : WebSocket) (st : State) : State :=
  let n := nextTimerId st in
  with_reconnectTimeoutRef (Some n)
    (with_nextTimerId (S n)
       (with_timers
          (<[n := {| handler := ReconnectTimer; due := now st + 3000; interval := None |}]>
             (match pingInterval x with
              | Some p => delete p (timers st)
              | None => timers st
              end))
          (with_wsRef None
             (with_isConnected false
                (with_sockets (alter close_socket ws (sockets st)) st))))).

(** ** Timers, routing and bursts *)


(** What a decoded frame asks of the hook. *)
Inductive Action :=
  | Ignore
  | Merge (id : jsval) (data : option jsval)
  | Invalidate (keys : list string).

Section vocabulary.
Context `{Runtime}.

(** The text of the keepalive frame. *)
Definition ping_frame : string := default "" (JSON_stringify (Data ping_message)).

(** [handleMessage] as a decision followed by an effect. *)
Definition route (message : jsval) : Action :=
  match own_props message !! "type" with
  | Some (JStr t) =>
      if bool_decide (t = "printer_status") then
        match own_props message !! "printer_id" with
        | Some id => Merge id (own_props message !! "data")
        | None => Ignore
        end
      else if bool_decide (t = "print_complete") then Invalidate ["archives"; "archiveStats"]
      else if bool_decide (t = "archive_created") then Invalidate ["archives"; "archiveStats"]
      else if bool_decide (t = "archive_updated") then Invalidate ["archives"]
      else Ignore
  | _ => Ignore
  end.

Definition perform (a : Action) (st : State) : State :=
  match a with
  | Ignore => st
  | Merge id data =>
      with_queryData
        (<[hashKey [JStr "printerStatus"; id] :=
             merge_printer_status data (queryData st !! hashKey [JStr "printerStatus"; id])]>
           (queryData st)) st
  | Invalidate keys => foldl (λ s k, exec (debouncedInvalidate k) s) st keys
  end.

(** [run_timer] as a change of the timer table followed by the callback. *)
Definition retime (id : nat) (t : Timer) (st : State) : State :=
  with_timers
    (match interval t with
     | Some p => <[id := {| handler := handler t; due := due t + p;
                            interval := Some p |}]> (timers st)
     | None => delete id (timers st)
     end) st.

Definition timer_callback (h : TimerHandler) : M unit :=
  match h with
  | ReconnectTimer => connect
  | PingTimer ws => ping_tick ws
  | FlushTimer => flush_pending
  end.

(** A burst of invalidation requests: before each one the clock moves on
    by the given gap. *)
Fixpoint burst (reqs : list (Z * string)) (st : State) : option State :=
  match reqs with
  | [] => Some st
  | (dt, k) :: rest =>
      match advance dt st with
      | Some st1 => burst rest (exec (debouncedInvalidate k) st1)
      | None => None
      end
  end.

(** What each event does to a reachable state, in closed form. *)
Definition step_result (e : Event) (st st' : State) : Prop :=
  match e with
  | SockOpen ws =>
      socket_readyState ws st = Some CONNECTING
      ∧ st' = exec (update_socket ws (set_readyState OPEN) ;; ws_onopen ws) st
  | SockMessage ws data =>
      socket_readyState ws st = Some OPEN
      ∧ st' = match JSON_parse data with
              | Some message => perform (route message) st
              | None => st
              end
  | SockError ws =>
      (∃ x, sockets st !! ws = Some x ∧ readyState x ≠ CLOSED)
      ∧ st' = with_sockets (alter start_closing ws (sockets st)) st
  | SockClose ws =>
      ∃ x, sockets st !! ws = Some x ∧ readyState x ≠ CLOSED ∧ st' = closed_state ws x st
  | TimerFire id =>
      ∃ t, timers st !! id = Some t ∧ due t = now st
           ∧ st' = exec (timer_callback (handler t)) (retime id t st)
  | AnimationFrame =>
      st' = with_invalidated (invalidated st ++ concat (rafQueue st)) (with_rafQueue [] st)
  | Advance dt =>
      0 ≤ dt ∧ no_timer_before (now st + dt) st ∧ st' = with_now (now st + dt) st
  | SendMessage message =>
      attached st = true ∧ st' = exec (sendMessage message) st
  | Unmount =>
      attached st = true ∧ st' = with_attached false (exec cleanup st)
  end.

End vocabulary.

Definition is_lifecycle (e : Event) : bool :=
  match e with
  | SockOpen _ | SockClose _ => true
  | _ => false
  end.

(** The most recent open or close event of a run. *)
Definition last_lifecycle (tr : list Event) : option Event :=
  last (filter (λ e, is_lifecycle e) tr).

(** The connected flag the hook shows after a run whose last open or close
    event is [o], starting from flag [b]. *)
Definition flag_of (o : option Event) (b : bool) : bool :=
  match o with
  | Some (SockOpen _) => true
  | Some _ => false
  | None => b
  end.

(** From the specification: open, close and error are the lifecycle events. *)
Definition is_transport (e : Event) : bool :=
  match e with
  | SockOpen _ | SockClose _ | SockError _ => true
  | _ => false
  end.

Definition last_transport (tr : list Event) : option Event :=
  last (filter (λ e, is_transport e) tr).

(** The flush timer [n] is armed, 100 ms after the last request, and it
    is the only one. *)
Record armed (n : nat) (st : State) : Prop := {
  armed_pos : (0 < n)%nat;
  armed_next : nextTimerId st = S n;
  armed_ref : invalidationTimeoutRef st = Some n;
  armed_timer : timers st !! n
                = Some {| handler := FlushTimer; due := now st + 100; interval := None |};
  armed_only : ∀ j t, timers st !! j = Some t → handler t = FlushTimer → j = n;
}.

(** The coalescer at rest: nothing pending, no flush timer, no frame
    callback queued. *)
Definition idle (st : State) : Prop :=
  (0 < nextTimerId st)%nat
  ∧ pendingInvalidations st = []
  ∧ rafQueue st = []
  ∧ ∀ id t, timers st !! id = Some t → handler t ≠ FlushTimer.

(** No timer other than the flush falls due before [h]. *)
Definition quiet (h : Z) (st : State) : Prop :=
  ∀ j t, timers st !! j = Some t → handler t ≠ FlushTimer → h ≤ due t.

(** ** More vocabulary *)

(** The own properties of a payload that may be [undefined]. *)
Definition payload_props (data : option jsval) : gmap string jsval :=
  match data with
  | Some v => own_props v
  | None => ∅
  end.

(** What the cache knows it keeps. *)
Definition remembers (old new : gmap string (gmap string jsval)) : Prop :=
  ∀ key S, old !! key = Some S →
    ∃ S', new !! key = Some S'
          ∧ (∀ field, is_Some (S !! field) → is_Some (S' !! field))
          ∧ (nullish (S !! "wifi_signal") = false → nullish (S' !! "wifi_signal") = false).

(** The collections the hook ever asks to refresh. *)
Definition collection_keys : list string := ["archives"; "archiveStats"].

(** A batch of keys as the coalescer builds them: distinct collection keys. *)
Definition batch (keys : list string) : Prop :=
  NoDup keys ∧ ∀ k, k ∈ keys → k ∈ collection_keys.

Definition logs_ok (st : State) : Prop :=
  batch (pendingInvalidations st)
  ∧ Forall batch (rafQueue st)
  ∧ ∀ k, k ∈ invalidated st → k ∈ collection_keys.

(** [clearTimeout(ref)] under its truthiness guard, on the timer table. *)
Definition clear_timer (r : option nat) (m : gmap nat Timer) : gmap nat Timer :=
  match r with
  | Some (S n) => delete (S n) m
  | Some O | None => m
  end.

(** The flag's handle: [wsRef] holds a handle whose keepalive is set. *)
Definition linked (st : State) : Prop :=
  ∃ ws s, wsRef st = Some ws ∧ sockets st !! ws = Some s ∧ is_Some (pingInterval s).

Definition flag_ok (st : State) : Prop := isConnected st = true ↔ linked st.

(** Requests and their timer go together. *)
Definition flush_ok (st : State) : Prop :=
  (∀ id t, timers st !! id = Some t → handler t = FlushTimer →
     pendingInvalidations st ≠ [] ∧ now st ≤ due t ≤ now st + 100)
  ∧ (attached st = true → pendingInvalidations st ≠ [] →
     ∃ id t, timers st !! id = Some t ∧ handler t = FlushTimer).

(** ** A concrete platform

    A page served over https, with a serialiser for JSON values and a
    decoder that inverts it on a table of sample frames.  It instantiates
    the general statements at concrete inputs. *)
Module Fixture.

Definition dquote : Ascii.ascii := Ascii.ascii_of_nat 34.
Definition backslash : Ascii.ascii := Ascii.ascii_of_nat 92.

Fixpoint escape (s : string) : string :=
  match s with
  | EmptyString => EmptyString
  | String c rest =>
      if bool_decide (c = dquote ∨ c = backslash)
      then String backslash (String c (escape rest))
      else String c (escape rest)
  end.

Definition quote (s : string) : string :=
  String dquote (escape s +:+ String dquote EmptyString).

Fixpoint stringify (v : jsval) : string :=
  match v with
  | JNull => "null"
  | JBool b => if b then "true" else "false"
  | JNum n => pretty n
  | JStr s => quote s
  | JArr xs => "[" +:+ String.concat "," (map stringify xs) +:+ "]"
  | JObj fields =>
      "{" +:+ String.concat ","
                (map_fold (λ k x acc, acc ++ [quote k +:+ ":" +:+ stringify x]) [] fields)
          +:+ "}"
  end.

Definition archive_created : jsval := JObj {[ "type" := JStr "archive_created" ]}.
Definition archive_updated : jsval := JObj {[ "type" := JStr "archive_updated" ]}.
Definition print_complete : jsval := JObj {[ "type" := JStr "print_complete" ]}.
Definition pong : jsval := JObj {[ "type" := JStr "pong" ]}.
Definition firmware_update : jsval := JObj {[ "type" := JStr "firmware_update" ]}.
Definition status_without_id : jsval :=
  JObj {[ "type" := JStr "printer_status";
          "data" := JObj {[ "state" := JStr "RUNNING" ]} ]}.
Definition status_of_7 : jsval :=
  JObj {[ "type" := JStr "printer_status"; "printer_id" := JNum 7;
          "data" := JObj {[ "state" := JStr "RUNNING"; "wifi_signal" := JNull ]} ]}.

Definition sample_frames : list jsval :=
  [archive_created; archive_updated; print_complete; pong; firmware_update;
   status_without_id; status_of_7; JNull].

Definition parse (data : string) : option jsval :=
  snd <$> list_find (λ v, stringify v = data) sample_frames.

Definition stringify_unknown (value : unknown) : option string :=
  match value with
  | Data v => Some (stringify v)
  | HoldsBigInt | Cyclic => None
  end.

Definition page : Runtime :=
  {| location_protocol := "https:";
     location_host := "farm.local";
     JSON_parse := parse;
     JSON_stringify := stringify_unknown;
     hashKey := λ key, stringify (JArr key);
     JSON_stringify_data := λ v, ex_intro _ (stringify v) eq_refl;
     JSON_stringify_bigint := eq_refl;
     JSON_stringify_cyclic := eq_refl |}.

(** The hook on that page after its handle has opened. *)
Definition opened : State :=
  exec (update_socket 0 (set_readyState OPEN) ;; ws_onopen 0) (@mount page).

End Fixture.

(** * Properties *)

Section properties.
Context `{Runtime}.

(** ** The merge *)

Lemma nullish_union_left (P S : gmap string jsval) k :
  (P ∪ S) !! k = shallow_union_field S P k.
Proof.
  unfold shallow_union_field. rewrite lookup_union.
  destruct (P !! k), (S !! k); reflexivity.
Qed.

Lemma merge_printer_status_field (old : option (gmap string jsval)) (P : gmap string jsval) field :
  merge_printer_status (Some (JObj P)) old !! field = merged_field (default ∅ old) P field.
Proof.
  unfold merge_printer_status, merged_field. cbn [spread own_props].
  assert (Hold : old ≫= (λ o, o !! "wifi_signal") = default ∅ old !! "wifi_signal").
  { destruct old; [reflexivity | symmetry; apply lookup_empty]. }
  rewrite Hold. set (S := default ∅ old).
  rewrite (nullish_union_left P S "wifi_signal").
  destruct (bool_decide_reflect (field = "wifi_signal")) as [-> | Hne]; cbn [andb].
  - destruct (nullish (shallow_union_field S P "wifi_signal")) eqn:Hn; cbn [andb].
    + destruct (S !! "wifi_signal") as [w|] eqn:Hw; cbn [nullish negb].
      * destruct w; cbn [negb];
          first [apply nullish_union_left | apply lookup_insert_eq].
      * apply nullish_union_left.
    + apply nullish_union_left.
  - destruct (nullish (shallow_union_field S P "wifi_signal") && negb (nullish (S !! "wifi_signal"))).
    + destruct (S !! "wifi_signal") as [w|].
      * rewrite lookup_insert_ne by congruence. apply nullish_union_left.
      * apply nullish_union_left.
    + apply nullish_union_left.
Qed.

Lemma handleMessage_status st id P :
  handleMessage (status_frame id P) st =
  (Normal tt,
   with_queryData
     (<[hashKey [JStr "printerStatus"; id] :=
          merge_printer_status (Some (JObj P))
            (queryData st !! hashKey [JStr "printerStatus"; id])]> (queryData st)) st).
Proof.
  unfold handleMessage, status_frame, get_prop, bind, ret. cbn [own_props].
  rewrite lookup_insert_eq.
  rewrite bool_decide_eq_true_2 by reflexivity.
  rewrite lookup_insert_ne by done. rewrite lookup_insert_eq.
  rewrite lookup_insert_ne by done. rewrite lookup_insert_ne by done.
  rewrite lookup_singleton_eq. reflexivity.
Qed.

(** C3.  Merging a [printer_status] payload [P] into the prior snapshot [S]
    (an absent snapshot counts as empty) gives, field by field, the shallow
    union of [S] and [P] with [P] winning, except that a null or absent
    [wifi_signal] in the union gives way to the non-null value [S] held; the
    result is written under the key of the printer.  So [{wifi_signal: null}]
    onto [{wifi_signal: -42, state: "IDLE"}] keeps both fields, and
    [{wifi_signal: -50}] onto it replaces the signal. *)
Theorem printer_status_merge_is_sticky_union :
  (∀ (old : option (gmap string jsval)) (P : gmap string jsval) field,
     merge_printer_status (Some (JObj P)) old !! field
     = merged_field (default ∅ old) P field)
  ∧ (∀ st id (P : gmap string jsval),
       queryData (exec (handleMessage (status_frame id P)) st)
         !! hashKey [JStr "printerStatus"; id]
       = Some (merge_printer_status (Some (JObj P))
                 (queryData st !! hashKey [JStr "printerStatus"; id])))
  ∧ merge_printer_status (Some (JObj {[ "wifi_signal" := JNull ]}))
      (Some {[ "wifi_signal" := JNum (-42); "state" := JStr "IDLE" ]})
    = {[ "wifi_signal" := JNum (-42); "state" := JStr "IDLE" ]}
  ∧ merge_printer_status (Some (JObj {[ "wifi_signal" := JNum (-50) ]}))
      (Some {[ "wifi_signal" := JNum (-42); "state" := JStr "IDLE" ]})
    = {[ "wifi_signal" := JNum (-50); "state" := JStr "IDLE" ]}.
Proof.
  split; [apply merge_printer_status_field|].
  split.
  - intros st id P. unfold exec. rewrite handleMessage_status. cbn.
    apply lookup_insert_eq.
  - split; vm_compute; reflexivity.
Qed.

(** ** The router and [sendMessage] *)

Lemma handleMessage_unrecognized message st :
  message ≠ JNull →
  (∀ t, message_type message = Some t → t ∉ recognized_types) →
  handleMessage message st = (Normal tt, st).
Proof.
  intros Hnn Hty. unfold handleMessage, message_type in *.
  assert (Hget : get_prop message "type" = ret (own_props message !! "type")).
  { destruct message; try reflexivity. congruence. }
  rewrite Hget. unfold bind, ret.
  destruct (own_props message !! "type") as [[| | |t| |]|]; try reflexivity.
  specialize (Hty t eq_refl). unfold recognized_types in Hty.
  repeat (rewrite bool_decide_eq_false_2; [|intros ->; apply Hty; set_solver]).
  reflexivity.
Qed.

(** C9.  A frame that does not decode, and a decoded frame whose type is none
    of [printer_status], [print_complete], [archive_created],
    [archive_updated], [pong], is dropped: the handler returns normally and
    the whole state, the cache included, is what it was. *)
Theorem unrecognized_frames_are_discarded (data : string) (st : State) :
  (JSON_parse data = None
   ∨ ∃ message, JSON_parse data = Some message
                ∧ ∀ t, message_type message = Some t → t ∉ recognized_types) →
  ws_onmessage data st = (Normal tt, st).
Proof.
  intros [Hnone | (message & Hsome & Hty)]; unfold ws_onmessage, try_catch.
  - rewrite Hnone. reflexivity.
  - rewrite Hsome.
    assert (Hcases : message = JNull ∨ message ≠ JNull)
      by (destruct message; [left; reflexivity | right; discriminate ..]).
    destruct Hcases as [-> | Hnn].
    + reflexivity.
    + rewrite handleMessage_unrecognized by assumption. reflexivity.
Qed.

(** C10.  A [printer_status] frame without a [printer_id] writes nothing:
    the handler returns normally and every cache key keeps its value. *)
Theorem printer_status_without_id_writes_nothing (message : jsval) (st : State) :
  message_type message = Some "printer_status" →
  own_props message !! "printer_id" = None →
  handleMessage message st = (Normal tt, st)
  ∧ ∀ data, JSON_parse data = Some message → ws_onmessage data st = (Normal tt, st).
Proof.
  intros Hty Hid.
  assert (Hm : handleMessage message st = (Normal tt, st)).
  { assert (Hget : ∀ name, get_prop message name = ret (own_props message !! name)).
    { intros name. destruct message; try reflexivity.
      unfold message_type in Hty. cbn in Hty. rewrite lookup_empty in Hty. discriminate. }
    unfold handleMessage, message_type in *. rewrite !Hget. unfold bind, ret.
    destruct (own_props message !! "type") as [[| | |t| |]|]; try discriminate.
    injection Hty as ->. rewrite bool_decide_eq_true_2 by reflexivity.
    rewrite Hid. reflexivity. }
  split; [exact Hm|].
  intros data Hp. unfold ws_onmessage, try_catch. rewrite Hp, Hm. reflexivity.
Qed.

Lemma current_open_inv st :
  current_readyState st = Some OPEN →
  ∃ ws s, wsRef st = Some ws ∧ sockets st !! ws = Some s ∧ readyState s = OPEN.
Proof.
  unfold current_readyState, socket_readyState.
  destruct (wsRef st) as [ws|]; [|discriminate].
  destruct (sockets st !! ws) as [s|] eqn:Hs; [|discriminate].
  cbn. intros [= Hr]. eauto.
Qed.

Lemma sendMessage_open message frame st ws s :
  wsRef st = Some ws → sockets st !! ws = Some s → readyState s = OPEN →
  JSON_stringify message = Some frame →
  sendMessage message st
  = (Normal tt, with_sockets (alter (push_sent frame) ws (sockets st)) st).
Proof.
  intros Hw Hs Hr Hj.
  assert (Hc : current_readyState st = Some OPEN).
  { unfold current_readyState, socket_readyState. rewrite Hw, Hs. cbn. by rewrite Hr. }
  assert (Hq : socket_readyState ws st = Some OPEN).
  { unfold socket_readyState. rewrite Hs. cbn. by rewrite Hr. }
  unfold sendMessage, bind, gets. rewrite Hc.
  rewrite bool_decide_eq_true_2 by reflexivity. rewrite Hw.
  unfold call_JSON_stringify. rewrite Hj.
  unfold ret, ws_send, bind, gets. rewrite Hq. reflexivity.
Qed.

Lemma sendMessage_rejected message st :
  current_readyState st = Some OPEN → JSON_stringify message = None →
  sendMessage message st = (Throw TypeError, st).
Proof.
  intros Hc Hj. destruct (current_open_inv st Hc) as (ws & s & Hw & _ & _).
  unfold sendMessage, bind, gets. rewrite Hc.
  rewrite bool_decide_eq_true_2 by reflexivity. rewrite Hw.
  unfold call_JSON_stringify. by rewrite Hj.
Qed.

Lemma sendMessage_not_open message st :
  current_readyState st ≠ Some OPEN → sendMessage message st = (Normal tt, st).
Proof.
  intros Hn. unfold sendMessage, bind, gets.
  rewrite bool_decide_eq_false_2 by assumption. reflexivity.
Qed.

Lemma sendMessage_sockets message frame st ws s :
  wsRef st = Some ws → sockets st !! ws = Some s → readyState s = OPEN →
  JSON_stringify message = Some frame →
  sockets (exec (sendMessage message) st) = <[ws := push_sent frame s]> (sockets st).
Proof.
  intros Hw Hs Hr Hj. unfold exec. rewrite (sendMessage_open _ _ _ _ _ Hw Hs Hr Hj). cbn.
  apply list_eq. intros i. destruct (decide (i = ws)) as [-> | Hne].
  - rewrite list_lookup_alter_eq, Hs. cbn.
    rewrite list_lookup_insert_eq; [reflexivity | by eapply lookup_lt_Some].
  - rewrite list_lookup_alter_ne, list_lookup_insert_ne by congruence. reflexivity.
Qed.

(** C7, amended.  [sendMessage] puts a message on the wire if and only if
    the current handle is open and [JSON.stringify] serialises the message,
    and what it puts there is that text, appended to the open handle.  On an
    open handle a message [JSON.stringify] rejects raises the [TypeError] to
    the caller and nothing is sent; that is the only way the call raises.
    In any state other than open the call, whatever the message, returns
    normally and changes nothing at all, so nothing is queued and no later
    run can tell that it was called. *)
Theorem sendMessage_transmits_iff_open (message : unknown) (st : State) :
  (frames_out (exec (sendMessage message) st) ≠ frames_out st
   ↔ current_readyState st = Some OPEN ∧ is_Some (JSON_stringify message))
  ∧ (∀ frame, current_readyState st = Some OPEN → JSON_stringify message = Some frame →
     ∃ ws s, wsRef st = Some ws ∧ sockets st !! ws = Some s
             ∧ sendMessage message st
               = (Normal tt, with_sockets (<[ws := push_sent frame s]> (sockets st)) st))
  ∧ (current_readyState st = Some OPEN → JSON_stringify message = None →
     sendMessage message st = (Throw TypeError, st))
  ∧ ((sendMessage message st).1 ≠ Normal tt
     ↔ current_readyState st = Some OPEN ∧ JSON_stringify message = None)
  ∧ (current_readyState st ≠ Some OPEN →
     sendMessage message st = (Normal tt, st)
     ∧ ∀ tr, run tr (exec (sendMessage message) st) = run tr st).
Proof.
  destruct (decide (current_readyState st = Some OPEN)) as [Ho | Hn].
  - destruct (current_open_inv st Ho) as (ws & s & Hw & Hs & Hr).
    destruct (JSON_stringify message) as [frame|] eqn:Hj.
    + pose proof (sendMessage_open message frame st ws s Hw Hs Hr Hj) as Hsend.
      pose proof (sendMessage_sockets message frame st ws s Hw Hs Hr Hj) as Hsock.
      split; [|split; [|split; [|split]]].
      * split; [intros _; split; [exact Ho | by eexists]|]. intros _ Heq.
        unfold frames_out in Heq. rewrite Hsock in Heq.
        assert (Hl : (sent <$> <[ws := push_sent frame s]> (sockets st)) !! ws
                     = (sent <$> sockets st) !! ws) by (rewrite Heq; reflexivity).
        rewrite !list_lookup_fmap, Hs in Hl.
        rewrite list_lookup_insert_eq in Hl by (by eapply lookup_lt_Some).
        cbn in Hl. injection Hl as Hl. apply (f_equal length) in Hl.
        rewrite length_app in Hl. cbn in Hl. lia.
      * intros frame' _ [= <-]. exists ws, s. split; [done|]. split; [done|].
        rewrite Hsend. f_equal. unfold exec in Hsock. rewrite Hsend in Hsock. cbn in Hsock.
        by rewrite Hsock.
      * discriminate.
      * rewrite Hsend. cbn. split; [done | by intros [_ ?]].
      * intros Hc. contradiction.
    + pose proof (sendMessage_rejected message st Ho Hj) as Hsend.
      split; [|split; [|split; [|split]]].
      * unfold exec. rewrite Hsend. cbn. split; [done|]. intros [_ [? ?]]. discriminate.
      * discriminate.
      * intros _ _. exact Hsend.
      * rewrite Hsend. cbn. split; [done | discriminate].
      * intros Hc. contradiction.
  - pose proof (sendMessage_not_open message st Hn) as Hsend.
    assert (He : exec (sendMessage message) st = st) by (unfold exec; rewrite Hsend; reflexivity).
    split; [|split; [|split; [|split]]].
    + rewrite He. split; [done | by intros [? _]].
    + intros frame Hc. contradiction.
    + intros Hc. contradiction.
    + rewrite Hsend. cbn. split; [done | by intros [? _]].
    + intros _. split; [exact Hsend|]. intros tr. rewrite He. reflexivity.
Qed.

(** ** The invariant is kept *)

Lemma alter_lookup_Some {A} (f : A → A) ws (l : list A) i s' :
  alter f ws l !! i = Some s' →
  ∃ s, l !! i = Some s ∧ ((i = ws ∧ s' = f s) ∨ (i ≠ ws ∧ s' = s)).
Proof.
  destruct (decide (ws = i)) as [-> | Hne].
  - rewrite list_lookup_alter_eq. destruct (l !! i) as [s|]; [|discriminate].
    cbn. intros [= <-]. eauto.
  - rewrite list_lookup_alter_ne by assumption. intros Hs. exists s'. split; [done|].
    right. split; [congruence | done].
Qed.


Lemma alter_lookup_pres {A} (f : A → A) ws (l : list A) i s :
  l !! i = Some s → alter f ws l !! i = Some (if decide (ws = i) then f s else s).
Proof.
  intros Hs. destruct (decide (ws = i)) as [-> | Hne].
  - by rewrite list_lookup_alter_eq, Hs.
  - by rewrite list_lookup_alter_ne.
Qed.

Ltac break_lookups :=
  repeat match goal with
  | H : alter _ _ _ !! _ = Some _ |- _ =>
      apply alter_lookup_Some in H; destruct H as (? & H & [[? ?] | [? ?]]); subst
  | H : <[_ := _]> _ !! _ = Some _ |- _ =>
      apply lookup_insert_Some in H; destruct H as [[? ?] | [? H]]; subst
  | H : delete _ _ !! _ = Some _ |- _ =>
      apply lookup_delete_Some in H; destruct H as [? H]
  | H : (_ ++ [_]) !! _ = Some _ |- _ =>
      apply lookup_snoc_Some in H; destruct H as [[? H] | [? ?]]; subst
  end; try congruence.

Lemma Inv_same_core a b : same_core a b → Inv a → Inv b.
Proof.
  intros (E1 & E2 & E3 & E4 & E5 & E6 & E7) [].
  constructor; rewrite <- ?E1, <- ?E2, <- ?E3, <- ?E4, <- ?E5, <- ?E6, <- ?E7; assumption.
Qed.

Lemma Inv_alter_sent st ws f :
  (∀ s, readyState (f s) = readyState s ∧ pingInterval (f s) = pingInterval s) →
  Inv st → Inv (with_sockets (alter f ws (sockets st)) st).
Proof.
  intros Hf HI. constructor; cbn; try apply HI.
  - intros i s Hs Hr. break_lookups.
    + eapply (inv_current _ HI); [eassumption|]. by rewrite <- (proj1 (Hf _)).
    + by eapply (inv_current _ HI).
  - intros i s id Hs Hp. break_lookups.
    + rewrite (proj2 (Hf _)) in Hp. rewrite (proj1 (Hf _)). by eapply (inv_ping _ HI).
    + by eapply (inv_ping _ HI).
  - intros i s Hs Hr. break_lookups.
    + rewrite (proj2 (Hf _)). rewrite (proj1 (Hf _)) in Hr. by eapply (inv_open _ HI).
    + by eapply (inv_open _ HI).
  - intros id t i Ht Hh. destruct (inv_ping_owner _ HI id t i Ht Hh) as (s & Hs & Hp).
    eexists. split; [by apply alter_lookup_pres|].
    case_decide; [by rewrite (proj2 (Hf _))|done].
Qed.

Lemma start_closing_pingInterval s : pingInterval (start_closing s) = pingInterval s.
Proof. unfold start_closing. by destruct (readyState s). Qed.

Lemma start_closing_not_closed s :
  readyState (start_closing s) ≠ CLOSED → readyState s ≠ CLOSED.
Proof. unfold start_closing. destruct (readyState s) eqn:E; cbn; congruence. Qed.

Lemma start_closing_not_open s : readyState (start_closing s) ≠ OPEN.
Proof. unfold start_closing. destruct (readyState s) eqn:E; cbn; congruence. Qed.

Lemma Inv_start_closing st ws :
  Inv st → Inv (with_sockets (alter start_closing ws (sockets st)) st).
Proof.
  intros HI. constructor; cbn; try apply HI.
  - intros i s Hs Hr. break_lookups; eapply (inv_current _ HI);
      eauto using start_closing_not_closed.
  - intros i s id Hs Hpi. break_lookups; [|by eapply (inv_ping _ HI)].
    rewrite start_closing_pingInterval in Hpi.
    destruct (inv_ping _ HI _ _ _ Hs Hpi) as [Hr Ht].
    split; [|exact Ht]. right. unfold start_closing.
    destruct Hr as [Hr | Hr]; rewrite Hr; cbn; congruence.
  - intros i s Hs Hr. break_lookups; [by apply start_closing_not_open in Hr|].
    by eapply (inv_open _ HI).
  - intros id t i Ht Hh. destruct (inv_ping_owner _ HI id t i Ht Hh) as (s & Hs & Hpi).
    eexists. split; [by apply alter_lookup_pres|].
    case_decide; [by rewrite start_closing_pingInterval|done].
Qed.

(** Removing a timer that is no keepalive timer. *)
Lemma Inv_delete_timer st id :
  (∀ t, timers st !! id = Some t → ∀ ws, handler t ≠ PingTimer ws) →
  Inv st → Inv (with_timers (delete id (timers st)) st).
Proof.
  intros Hid HI. constructor; cbn; try apply HI.
  - intros j t Ht. break_lookups. by eapply (inv_timer_ids _ HI).
  - intros j t Ht Hh. break_lookups. by eapply (inv_reconnect _ HI).
  - intros j Hj. destruct (inv_reconnect_ref _ HI j Hj) as [Hlt Hk].
    split; [done|]. intros t Ht. break_lookups. eauto.
  - intros j t Ht Hh. break_lookups. by eapply (inv_flush _ HI).
  - intros j Hj. destruct (inv_flush_ref _ HI j Hj) as [Hlt Hk].
    split; [done|]. intros t Ht. break_lookups. eauto.
  - intros i s j Hs Hp. destruct (inv_ping _ HI i s j Hs Hp) as [Hr (d & Ht & Hd)].
    split; [done|]. exists d. split; [|done].
    rewrite lookup_delete_ne; [done|]. intros ->. by eapply (Hid _ Ht).
  - intros j t i Ht Hh. break_lookups. by eapply (inv_ping_owner _ HI).
Qed.

Lemma Inv_clear_ref st (r : option nat) :
  r = reconnectTimeoutRef st ∨ r = invalidationTimeoutRef st →
  Inv st → Inv (exec (when_truthy r clearTimeout) st).
Proof.
  intros Hr HI. destruct r as [[|n]|]; cbn; try assumption.
  apply Inv_delete_timer; [|assumption].
  intros t Ht ws Hh. destruct Hr as [Hr | Hr]; symmetry in Hr.
  - destruct (inv_reconnect_ref _ HI _ Hr) as [_ Hk]. rewrite (Hk _ Ht) in Hh. discriminate.
  - destruct (inv_flush_ref _ HI _ Hr) as [_ Hk]. rewrite (Hk _ Ht) in Hh. discriminate.
Qed.

Lemma no_flush_after_clear st id t :
  Inv st →
  timers (exec (when_truthy (invalidationTimeoutRef st) clearTimeout) st) !! id = Some t →
  handler t ≠ FlushTimer.
Proof.
  intros HI Ht Hh.
  destruct (invalidationTimeoutRef st) as [[|n]|] eqn:Hr; cbn in Ht; break_lookups.
  - destruct (inv_flush _ HI _ _ Ht Hh) as [Hid _].
    pose proof (inv_timer_ids _ HI _ _ Ht). rewrite Hr in Hid. simplify_eq. lia.
  - destruct (inv_flush _ HI _ _ Ht Hh) as [Hid _]. congruence.
  - destruct (inv_flush _ HI _ _ Ht Hh) as [Hid _]. congruence.
Qed.

Lemma Inv_arm_flush st :
  Inv st → (∀ id t, timers st !! id = Some t → handler t ≠ FlushTimer) →
  Inv (arm_flush st).
Proof.
  intros HI Hnf. pose proof (inv_next _ HI) as Hn.
  constructor; cbn.
  - lia.
  - intros id t Ht. break_lookups; [lia|]. pose proof (inv_timer_ids _ HI _ _ Ht). lia.
  - apply HI.
  - intros id t Ht Hh. break_lookups; [done|]. by eapply (inv_reconnect _ HI).
  - intros id Hid. destruct (inv_reconnect_ref _ HI id Hid) as [Hlt Hk].
    split; [lia|]. intros t Ht. break_lookups; [lia|]. eauto.
  - intros id t Ht Hh. break_lookups; [done|]. by destruct (Hnf _ _ Ht).
  - intros id [= <-]. split; [lia|]. intros t Ht. break_lookups; done.
  - intros i s id Hs Hp. destruct (inv_ping _ HI i s id Hs Hp) as [Hr (d & Ht & Hd)].
    split; [done|]. exists d. split; [|done].
    pose proof (inv_timer_ids _ HI _ _ Ht). rewrite lookup_insert_ne by lia. done.
  - apply HI.
  - intros id t i Ht Hh. break_lookups; [done|]. by eapply (inv_ping_owner _ HI).
Qed.

Lemma debouncedInvalidate_exec k st :
  same_core
    (arm_flush (exec (when_truthy (invalidationTimeoutRef st) clearTimeout) st))
    (exec (debouncedInvalidate k) st).
Proof.
  unfold debouncedInvalidate, exec, bind, gets, modify. cbn.
  destruct (invalidationTimeoutRef st) as [[|n]|]; cbn; repeat split; reflexivity.
Qed.

Lemma Inv_debouncedInvalidate k st : Inv st → Inv (exec (debouncedInvalidate k) st).
Proof.
  intros HI. eapply Inv_same_core; [apply debouncedInvalidate_exec|].
  apply Inv_arm_flush.
  - apply Inv_clear_ref; auto.
  - intros id t. by apply no_flush_after_clear.
Qed.

Lemma debouncedInvalidate_normal k st :
  debouncedInvalidate k st = (Normal tt, exec (debouncedInvalidate k) st).
Proof.
  unfold debouncedInvalidate, exec, bind, gets, modify. cbn.
  destruct (invalidationTimeoutRef st) as [[|n]|]; reflexivity.
Qed.

Lemma exec_bind_normal {A B} (m : M A) (k : A → M B) st a :
  m st = (Normal a, exec m st) → exec (bind m k) st = exec (k a) (exec m st).
Proof. unfold exec, bind. intros ->. reflexivity. Qed.

Lemma get_prop_object message name :
  message ≠ JNull → get_prop message name = ret (own_props message !! name).
Proof. destruct message; [congruence | reflexivity ..]. Qed.

Lemma jsval_null_or_not (message : jsval) : message = JNull ∨ message ≠ JNull.
Proof. destruct message; [left; reflexivity | right; discriminate ..]. Qed.

Lemma Inv_handleMessage message st : Inv st → Inv (exec (handleMessage message) st).
Proof.
  intros HI. destruct (jsval_null_or_not message) as [-> | Hnn]; [exact HI|].
  unfold handleMessage. rewrite !(get_prop_object _ _ Hnn).
  unfold exec, bind, ret.
  destruct (own_props message !! "type") as [[| | |t| |]|]; try exact HI.
  repeat case_bool_decide; try exact HI.
  - destruct (own_props message !! "printer_id"); [|exact HI].
    eapply Inv_same_core; [|exact HI]. repeat split; reflexivity.
  - rewrite debouncedInvalidate_normal.
    apply Inv_debouncedInvalidate, Inv_debouncedInvalidate; exact HI.
  - rewrite debouncedInvalidate_normal.
    apply Inv_debouncedInvalidate, Inv_debouncedInvalidate; exact HI.
  - apply Inv_debouncedInvalidate; exact HI.
Qed.

Lemma Inv_ws_onmessage data st : Inv st → Inv (exec (ws_onmessage data) st).
Proof.
  intros HI. pose proof (Inv_handleMessage) as Hh.
  unfold ws_onmessage, exec, try_catch.
  destruct (JSON_parse data) as [message|]; [|exact HI].
  specialize (Hh message st HI). unfold exec in Hh.
  destruct (handleMessage message st) as [[[]|e] st']; exact Hh.
Qed.

Lemma Inv_sendMessage message st : Inv st → Inv (exec (sendMessage message) st).
Proof.
  intros HI. unfold sendMessage, exec, bind, gets.
  case_bool_decide; [|exact HI]. destruct (wsRef st) as [ws|]; [|exact HI].
  unfold call_JSON_stringify. destruct (JSON_stringify message) as [frame|]; [|exact HI].
  unfold ret, ws_send, bind, gets. destruct (socket_readyState ws st) as [[]|]; try exact HI.
  apply Inv_alter_sent; [|exact HI]. intros s. split; reflexivity.
Qed.

Lemma invalidate_keys_core keys st : same_core st (exec (invalidate_keys keys) st).
Proof.
  revert st. induction keys as [|k keys IH]; intros st; [repeat split; reflexivity|].
  specialize (IH (with_invalidated (invalidated st ++ [k]) st)).
  exact IH.
Qed.

Lemma invalidate_keys_normal keys st :
  invalidate_keys keys st = (Normal tt, exec (invalidate_keys keys) st).
Proof.
  revert st. induction keys as [|k keys IH]; intros st; [reflexivity|].
  cbn. unfold bind, invalidateQueries, modify at 1. rewrite IH. reflexivity.
Qed.

Lemma same_core_trans a b c : same_core a b → same_core b c → same_core a c.
Proof. unfold same_core. intuition congruence. Qed.

Lemma run_frame_core cbs st : same_core st (exec (run_frame cbs) st).
Proof.
  revert st. induction cbs as [|keys cbs IH]; intros st; [repeat split; reflexivity|].
  cbn [run_frame].
  rewrite (exec_bind_normal _ _ st tt (invalidate_keys_normal keys st)).
  eapply same_core_trans; [apply invalidate_keys_core | apply IH].
Qed.

Lemma Inv_animation_frame st : Inv st → Inv (exec animation_frame st).
Proof.
  intros HI. eapply Inv_same_core; [|exact HI].
  unfold animation_frame, exec, bind, gets, modify. cbn.
  pose proof (run_frame_core (rafQueue st) (with_rafQueue [] st)) as Hc.
  unfold same_core in *. cbn in Hc. exact Hc.
Qed.

Lemma when_truthy_clear_normal r st :
  when_truthy r clearTimeout st = (Normal tt, exec (when_truthy r clearTimeout) st).
Proof. destruct r as [[|n]|]; reflexivity. Qed.

Lemma when_truthy_clear_refs r st :
  let st' := exec (when_truthy r clearTimeout) st in
  wsRef st' = wsRef st ∧ reconnectTimeoutRef st' = reconnectTimeoutRef st
  ∧ invalidationTimeoutRef st' = invalidationTimeoutRef st ∧ sockets st' = sockets st.
Proof. destruct r as [[|n]|]; repeat split; reflexivity. Qed.

Lemma cleanup_exec st :
  let st1 := exec (when_truthy (reconnectTimeoutRef st) clearTimeout) st in
  let st2 := exec (when_truthy (invalidationTimeoutRef st) clearTimeout) st1 in
  exec cleanup st
  = match wsRef st with
    | Some ws => with_sockets (alter start_closing ws (sockets st2)) st2
    | None => st2
    end.
Proof.
  unfold cleanup, exec, bind, gets. cbn.
  rewrite when_truthy_clear_normal.
  destruct (when_truthy_clear_refs (reconnectTimeoutRef st) st) as (E1 & E2 & E3 & E4).
  unfold exec in *. rewrite E3. rewrite when_truthy_clear_normal.
  set (st1 := (when_truthy (reconnectTimeoutRef st) clearTimeout st).2) in *.
  destruct (when_truthy_clear_refs (invalidationTimeoutRef st) st1) as (F1 & F2 & F3 & F4).
  unfold exec in *. rewrite F1, E1. destruct (wsRef st); reflexivity.
Qed.

Lemma Inv_cleanup st : Inv st → Inv (exec cleanup st).
Proof.
  intros HI. rewrite cleanup_exec. cbn zeta.
  assert (H1 : Inv (exec (when_truthy (reconnectTimeoutRef st) clearTimeout) st))
    by (apply Inv_clear_ref; auto).
  assert (H2 : Inv (exec (when_truthy (invalidationTimeoutRef st) clearTimeout)
                      (exec (when_truthy (reconnectTimeoutRef st) clearTimeout) st))).
  { apply Inv_clear_ref; [|exact H1]. right.
    by destruct (when_truthy_clear_refs (reconnectTimeoutRef st) st) as (_ & _ & -> & _). }
  destruct (wsRef st); [by apply Inv_start_closing | exact H2].
Qed.

Lemma Inv_with_attached b st : Inv st → Inv (with_attached b st).
Proof. apply Inv_same_core. repeat split; reflexivity. Qed.

Lemma Inv_advance dt st :
  0 ≤ dt → no_timer_before (now st + dt) st → Inv st → Inv (with_now (now st + dt) st).
Proof.
  intros Hdt Hnt HI. constructor; cbn; try apply HI.
  intros i s id Hs Hp. destruct (inv_ping _ HI i s id Hs Hp) as [Hr (d & Ht & Hd)].
  split; [done|]. exists d. split; [done|].
  pose proof (map_Forall_lookup_1 _ _ _ _ Hnt Ht) as Hdue. cbn in Hdue. lia.
Qed.

Lemma socket_readyState_Some ws st r :
  socket_readyState ws st = Some r →
  ∃ s, sockets st !! ws = Some s ∧ readyState s = r.
Proof.
  unfold socket_readyState. destruct (sockets st !! ws) as [s|]; [|discriminate].
  cbn. intros [= <-]. eauto.
Qed.

Lemma Inv_SockOpen ws st :
  Inv st → socket_readyState ws st = Some CONNECTING →
  Inv (exec (update_socket ws (set_readyState OPEN) ;; ws_onopen ws) st).
Proof.
  intros HI Hc. destruct (socket_readyState_Some _ _ _ Hc) as (x & Hx & Hrx).
  pose proof (inv_next _ HI) as Hn.
  assert (Hnp : pingInterval x = None).
  { destruct (pingInterval x) as [p|] eqn:Hp; [|done].
    destruct (inv_ping _ HI _ _ _ Hx Hp) as [[Hr | Hr] _]; congruence. }
  constructor; cbn.
  - lia.
  - intros id t Ht. break_lookups; [lia|]. pose proof (inv_timer_ids _ HI _ _ Ht). lia.
  - intros i s Hs Hr. break_lookups.
    + eapply (inv_current _ HI); [exact Hx | congruence].
    + by eapply (inv_current _ HI).
  - intros id t Ht Hh. break_lookups; [done|]. by eapply (inv_reconnect _ HI).
  - intros id Hid. destruct (inv_reconnect_ref _ HI id Hid) as [Hlt Hk].
    split; [lia|]. intros t Ht. break_lookups; [lia|]. eauto.
  - intros id t Ht Hh. break_lookups; [done|]. by eapply (inv_flush _ HI).
  - intros id Hid. destruct (inv_flush_ref _ HI id Hid) as [Hlt Hk].
    split; [lia|]. intros t Ht. break_lookups; [lia|]. eauto.
  - intros i s id Hs Hp. break_lookups.
    + cbn in Hp. injection Hp as <-. split; [by left|].
      exists (now st + 30000). rewrite lookup_insert_eq. split; [done | lia].
    + edestruct (inv_ping _ HI i) as [Hr (d & Ht & Hd)]; [eassumption .. |].
      split; [done|]. exists d. split; [|done].
      pose proof (inv_timer_ids _ HI _ _ Ht). rewrite lookup_insert_ne by lia. done.
  - intros i s Hs Hr. break_lookups; [by eexists|]. by eapply (inv_open _ HI).
  - intros id t i Ht Hh. break_lookups.
    + cbn in Hh. injection Hh as <-. eexists. split.
      * rewrite list_lookup_alter_eq, list_lookup_alter_eq, Hx. reflexivity.
      * reflexivity.
    + destruct (inv_ping_owner _ HI id t i Ht Hh) as (s & Hs & Hp).
      assert (i ≠ ws) by (intros ->; congruence).
      exists s. split; [|done]. by rewrite !list_lookup_alter_ne.
Qed.

Lemma ws_onclose_exec ws st x :
  Inv st → sockets st !! ws = Some x →
  exec (update_socket ws (set_readyState CLOSED) ;; ws_onclose ws) st = closed_state ws x st.
Proof.
  intros HI Hx. unfold ws_onclose, update_socket, exec, bind, gets, modify, closed_state. cbn.
  rewrite list_lookup_alter_eq, Hx. cbn.
  destruct (pingInterval x) as [[|p]|] eqn:Hp; cbn.
  - destruct (inv_ping _ HI _ _ _ Hx Hp) as [_ (d & Ht & _)].
    pose proof (inv_timer_ids _ HI _ _ Ht). lia.
  - rewrite list_alter_alter_eq. reflexivity.
  - rewrite (list_alter_ext (set_readyState CLOSED) close_socket (sockets st) (sockets st) ws);
      [reflexivity | | reflexivity].
    intros y Hy. rewrite Hx in Hy. injection Hy as <-.
    unfold close_socket, set_pingInterval, set_readyState. cbn. by rewrite Hp.
Qed.

Lemma Inv_closed_state ws x st :
  Inv st → sockets st !! ws = Some x → readyState x ≠ CLOSED → Inv (closed_state ws x st).
Proof.
  intros HI Hx Hrx. pose proof (inv_next _ HI) as Hn.
  pose proof (inv_current _ HI _ _ Hx Hrx) as Hcur.
  assert (Hold : ∀ id t, match pingInterval x with
                         | Some p => delete p (timers st)
                         | None => timers st
                         end !! id = Some t →
                         timers st !! id = Some t ∧ pingInterval x ≠ Some id).
  { intros id t Ht. destruct (pingInterval x) as [p|]; [|done].
    apply lookup_delete_Some in Ht as [? ?]. split; [done | congruence]. }
  constructor; cbn.
  - lia.
  - intros id t Ht. break_lookups; [lia|]. apply Hold in Ht as [Ht _].
    pose proof (inv_timer_ids _ HI _ _ Ht). lia.
  - intros i s Hs Hr. break_lookups; [done|].
    assert (wsRef st = Some i) by (by eapply (inv_current _ HI)). congruence.
  - intros id t Ht Hh. break_lookups; [done|]. apply Hold in Ht as [Ht _].
    destruct (inv_reconnect _ HI _ _ Ht Hh) as [? _]. congruence.
  - intros id [= <-]. split; [lia|]. intros t Ht. break_lookups; done.
  - intros id t Ht Hh. break_lookups; [done|]. apply Hold in Ht as [Ht _].
    by eapply (inv_flush _ HI).
  - intros id Hid. destruct (inv_flush_ref _ HI id Hid) as [Hlt Hk].
    split; [lia|]. intros t Ht. break_lookups; [lia|]. apply Hold in Ht as [Ht _]. eauto.
  - intros i s id Hs Hp. break_lookups; [done|].
    edestruct (inv_ping _ HI i) as [Hr (d & Ht & Hd)]; [eassumption .. |].
    split; [done|]. exists d. split; [|done].
    pose proof (inv_timer_ids _ HI _ _ Ht). rewrite lookup_insert_ne by lia.
    destruct (pingInterval x) as [p|] eqn:Hpx; [|done].
    rewrite lookup_delete_ne; [done|]. intros ->.
    destruct (inv_ping _ HI _ _ _ Hx Hpx) as [_ (d' & Ht' & _)]. congruence.
  - intros i s Hs Hr. break_lookups; [done|]. by eapply (inv_open _ HI).
  - intros id t i Ht Hh. break_lookups; [done|]. apply Hold in Ht as [Ht Hne].
    destruct (inv_ping_owner _ HI id t i Ht Hh) as (s & Hs & Hp).
    assert (i ≠ ws) by (intros ->; congruence).
    exists s. split; [|done]. by rewrite !list_lookup_alter_ne.
Qed.

Lemma Inv_connect_fresh st :
  Inv st → wsRef st = None →
  (∀ id t, timers st !! id = Some t → handler t ≠ ReconnectTimer) →
  Inv (exec connect st).
Proof.
  intros HI Hw Hnr. unfold connect, exec, bind, gets, current_readyState. rewrite Hw.
  rewrite bool_decide_eq_false_2 by discriminate. cbn.
  constructor; cbn; try apply HI.
  - intros i s Hs Hr. break_lookups; try done.
    pose proof (inv_current _ HI _ _ Hs Hr). congruence.
  - intros id t Ht Hh. by destruct (Hnr _ _ Ht).
  - intros i s id Hs Hp. break_lookups; try done. by eapply (inv_ping _ HI).
  - intros i s Hs Hr. break_lookups; try done. by eapply (inv_open _ HI).
  - intros id t i Ht Hh. destruct (inv_ping_owner _ HI id t i Ht Hh) as (s & Hs & Hp).
    exists s. split; [|done]. by apply lookup_app_l_Some.
Qed.

Lemma Inv_clear_flush_ref st :
  Inv st → (∀ id t, timers st !! id = Some t → handler t ≠ FlushTimer) →
  Inv (with_invalidationTimeoutRef None st).
Proof.
  intros HI Hnf. constructor; cbn; try apply HI.
  - intros id t Ht Hh. by destruct (Hnf _ _ Ht).
  - intros id [=].
Qed.

Lemma Inv_rearm st id ws d :
  Inv st →
  timers st !! id = Some {| handler := PingTimer ws; due := d; interval := Some 30000 |} →
  d = now st →
  Inv (with_timers (<[id := {| handler := PingTimer ws; due := d + 30000;
                               interval := Some 30000 |}]> (timers st)) st).
Proof.
  intros HI Hid Hd. constructor; cbn; try apply HI.
  - intros j t Ht. break_lookups; by eapply (inv_timer_ids _ HI).
  - intros j t Ht Hh. break_lookups; [done|]. by eapply (inv_reconnect _ HI).
  - intros j Hj. destruct (inv_reconnect_ref _ HI j Hj) as [Hlt Hk].
    split; [done|]. intros t Ht. break_lookups; [|by eauto]. by apply (Hk _ Hid).
  - intros j t Ht Hh. break_lookups; [done|]. by eapply (inv_flush _ HI).
  - intros j Hj. destruct (inv_flush_ref _ HI j Hj) as [Hlt Hk].
    split; [done|]. intros t Ht. break_lookups; [|by eauto]. by apply (Hk _ Hid).
  - intros i s j Hs Hp. destruct (inv_ping _ HI i s j Hs Hp) as [Hr (d' & Ht & Hd')].
    split; [done|]. destruct (decide (id = j)) as [<- | Hne].
    + rewrite Hid in Ht. injection Ht as <- <-.
      exists (d + 30000). rewrite lookup_insert_eq. split; [done | lia].
    + exists d'. rewrite lookup_insert_ne by done. done.
  - intros j t i Ht Hh. break_lookups; by eapply (inv_ping_owner _ HI).
Qed.

Lemma Inv_ping_tick ws st : Inv st → Inv (exec (ping_tick ws) st).
Proof.
  intros HI. unfold ping_tick, exec, bind, gets. case_bool_decide as Hr; [|exact HI].
  unfold call_JSON_stringify. destruct (JSON_stringify_data ping_message) as [frame ->].
  unfold ret, ws_send, bind, gets. rewrite Hr.
  apply Inv_alter_sent; [|exact HI]. intros s. split; reflexivity.
Qed.

Lemma Inv_run_timer id t st :
  Inv st → timers st !! id = Some t → due t = now st → Inv (exec (run_timer id t) st).
Proof.
  intros HI Ht Hdue. destruct t as [h d iv]. cbn in Hdue.
  destruct h as [|ws|].
  - destruct (inv_reconnect _ HI _ _ Ht eq_refl) as (Hw & Href & Hiv). cbn in Hiv. subst iv.
    unfold run_timer, exec, bind, clearTimeout, modify. cbn.
    apply Inv_connect_fresh; [| exact Hw |].
    + apply Inv_delete_timer; [|exact HI]. intros t' Ht' ws. rewrite Ht in Ht'.
      injection Ht' as <-. done.
    + cbn. intros j t' Ht' Hh. apply lookup_delete_Some in Ht' as [Hne Ht'].
      destruct (inv_reconnect _ HI _ _ Ht' Hh) as (_ & Href' & _). congruence.
  - destruct (inv_ping_owner _ HI _ _ ws Ht eq_refl) as (s & Hs & Hp).
    destruct (inv_ping _ HI _ _ _ Hs Hp) as [_ (d' & Ht' & _)].
    rewrite Ht in Ht'. injection Ht' as <- ->.
    unfold run_timer, exec, bind, modify. cbn.
    apply Inv_ping_tick. by apply Inv_rearm.
  - destruct (inv_flush _ HI _ _ Ht eq_refl) as (Href & Hiv). cbn in Hiv. subst iv.
    unfold run_timer, flush_pending, exec, bind, gets, clearTimeout,
      requestAnimationFrame, modify. cbn.
    eapply Inv_same_core;
      [|apply (Inv_clear_flush_ref (with_timers (delete id (timers st)) st))].
    + repeat split; reflexivity.
    + apply Inv_delete_timer; [|exact HI]. intros t' Ht' ws. rewrite Ht in Ht'.
      injection Ht' as <-. done.
    + cbn. intros j t' Ht' Hh. apply lookup_delete_Some in Ht' as [Hne Ht'].
      destruct (inv_flush _ HI _ _ Ht' Hh) as (Href' & _). congruence.
Qed.

Lemma mount_eq :
  mount = with_wsRef (Some 0%nat)
            (with_sockets [{| url := wsUrl; readyState := CONNECTING; sent := [];
                              pingInterval := None |}] fresh).
Proof. reflexivity. Qed.

Lemma Inv_mount : Inv mount.
Proof.
  rewrite mount_eq. constructor; cbn; try done.
  - lia.
  - intros [|i] s Hs Hr; [done|]. by destruct i.
  - intros [|i] s id Hs Hp; [|by destruct i]. by simplify_eq/=.
  - intros [|i] s Hs Hp; [|by destruct i]. by simplify_eq/=.
Qed.

Lemma step_Inv e st st' : Inv st → step e st = Some st' → Inv st'.
Proof.
  intros HI Hstep. destruct e; cbn in Hstep.
  - case_bool_decide; [|discriminate]. injection Hstep as <-. by apply Inv_SockOpen.
  - case_bool_decide; [|discriminate]. injection Hstep as <-. by apply Inv_ws_onmessage.
  - destruct (socket_readyState ws st) as [[]|]; try discriminate;
      injection Hstep as <-; by apply Inv_start_closing.
  - destruct (socket_readyState ws st) as [r|] eqn:Hr; [|discriminate].
    destruct (socket_readyState_Some _ _ _ Hr) as (x & Hx & Hrx).
    assert (st' = exec (update_socket ws (set_readyState CLOSED) ;; ws_onclose ws) st
            ∧ readyState x ≠ CLOSED) as [-> Hnc].
    { destruct r; try discriminate; injection Hstep as <-; split; congruence. }
    rewrite (ws_onclose_exec _ _ _ HI Hx). by apply Inv_closed_state.
  - destruct (timers st !! id) as [t|] eqn:Ht; [|discriminate].
    case_bool_decide; [|discriminate]. injection Hstep as <-. by apply Inv_run_timer.
  - injection Hstep as <-. by apply Inv_animation_frame.
  - unfold advance in Hstep. case_bool_decide as Hd; [|discriminate].
    injection Hstep as <-. destruct Hd. by apply Inv_advance.
  - destruct (attached st); [|discriminate]. injection Hstep as <-. by apply Inv_sendMessage.
  - destruct (attached st); [|discriminate]. injection Hstep as <-.
    by apply Inv_with_attached, Inv_cleanup.
Qed.

Lemma run_Inv tr st st' : Inv st → run tr st = Some st' → Inv st'.
Proof.
  revert st. induction tr as [|e tr IH]; intros st HI Hrun; cbn in Hrun.
  - by injection Hrun as <-.
  - destruct (step e st) as [st1|] eqn:Hs; [|discriminate].
    eapply IH; [|exact Hrun]. by eapply step_Inv.
Qed.

(** ** Handlers in closed form *)

Lemma invalidate_keys_exec keys st :
  exec (invalidate_keys keys) st = with_invalidated (invalidated st ++ keys) st.
Proof.
  revert st. induction keys as [|k keys IH]; intros st.
  - destruct st; cbn. by rewrite app_nil_r.
  - cbn [invalidate_keys].
    rewrite (exec_bind_normal (invalidateQueries k) _ st tt eq_refl), IH.
    destruct st; cbn. by rewrite <- app_assoc.
Qed.

Lemma run_frame_exec cbs st :
  exec (run_frame cbs) st = with_invalidated (invalidated st ++ concat cbs) st.
Proof.
  revert st. induction cbs as [|keys cbs IH]; intros st.
  - destruct st; cbn. by rewrite app_nil_r.
  - cbn [run_frame concat].
    rewrite (exec_bind_normal _ _ st tt (invalidate_keys_normal keys st)).
    rewrite IH, invalidate_keys_exec. destruct st; cbn. by rewrite <- app_assoc.
Qed.

Lemma animation_frame_exec st :
  exec animation_frame st
  = with_invalidated (invalidated st ++ concat (rafQueue st)) (with_rafQueue [] st).
Proof.
  unfold animation_frame, exec, bind, gets, modify. cbn.
  apply (run_frame_exec (rafQueue st) (with_rafQueue [] st)).
Qed.

Lemma connect_exec st :
  exec connect st
  = if bool_decide (current_readyState st = Some OPEN) then st
    else with_wsRef (Some (length (sockets st)))
           (with_sockets (sockets st ++ [{| url := wsUrl; readyState := CONNECTING;
                                            sent := []; pingInterval := None |}]) st).
Proof. unfold connect, exec, bind, gets. by case_bool_decide. Qed.

Lemma ping_frame_text : JSON_stringify (Data ping_message) = Some ping_frame.
Proof. unfold ping_frame. by destruct (JSON_stringify_data ping_message) as [frame ->]. Qed.

Lemma ping_tick_eq ws st :
  ping_tick ws st
  = (Normal tt,
     if bool_decide (socket_readyState ws st = Some OPEN)
     then with_sockets (alter (push_sent ping_frame) ws (sockets st)) st
     else st).
Proof.
  unfold ping_tick, bind, gets. case_bool_decide as Hr; [|done].
  unfold call_JSON_stringify. rewrite ping_frame_text.
  unfold ret, ws_send, bind, gets. by rewrite Hr.
Qed.

Lemma ping_tick_exec ws st :
  exec (ping_tick ws) st
  = if bool_decide (socket_readyState ws st = Some OPEN)
    then with_sockets (alter (push_sent ping_frame) ws (sockets st)) st
    else st.
Proof. unfold exec. by rewrite ping_tick_eq. Qed.

Lemma sendMessage_exec message st :
  exec (sendMessage message) st
  = match wsRef st, JSON_stringify message with
    | Some ws, Some frame =>
        if bool_decide (socket_readyState ws st = Some OPEN)
        then with_sockets (alter (push_sent frame) ws (sockets st)) st
        else st
    | _, _ => st
    end.
Proof.
  unfold sendMessage, exec, bind, gets, current_readyState.
  destruct (wsRef st) as [ws|] eqn:Hw; [|by rewrite bool_decide_eq_false_2].
  destruct (bool_decide (socket_readyState ws st = Some OPEN)) eqn:Hb;
    [|by destruct (JSON_stringify message)].
  apply bool_decide_eq_true_1 in Hb. unfold call_JSON_stringify.
  destruct (JSON_stringify message) as [frame|]; [|by rewrite Hw].
  unfold ret, ws_send, bind, gets. by rewrite Hw, Hb.
Qed.

Lemma debouncedInvalidate_eq k st :
  exec (debouncedInvalidate k) st
  = with_pendingInvalidations (set_add k (pendingInvalidations st))
      (arm_flush (exec (when_truthy (invalidationTimeoutRef st) clearTimeout) st)).
Proof.
  unfold debouncedInvalidate, exec, bind, gets, modify. cbn.
  destruct (invalidationTimeoutRef st) as [[|n]|]; reflexivity.
Qed.

Lemma handleMessage_exec message st :
  exec (handleMessage message) st = perform (route message) st.
Proof.
  destruct (jsval_null_or_not message) as [-> | Hnn]; [reflexivity|].
  unfold handleMessage, route. rewrite !(get_prop_object _ _ Hnn).
  unfold exec, bind, ret.
  destruct (own_props message !! "type") as [[| | |t| |]|]; try reflexivity.
  repeat case_bool_decide; try reflexivity.
  - destruct (own_props message !! "printer_id"); reflexivity.
  - rewrite debouncedInvalidate_normal. reflexivity.
  - rewrite debouncedInvalidate_normal. reflexivity.
Qed.

Lemma ws_onmessage_exec data st :
  ws_onmessage data st
  = (Normal tt, match JSON_parse data with
                | Some message => perform (route message) st
                | None => st
                end).
Proof.
  unfold ws_onmessage, try_catch.
  destruct (JSON_parse data) as [message|]; [|reflexivity].
  rewrite <- handleMessage_exec. unfold exec.
  destruct (handleMessage message st) as [[[]|e] st']; reflexivity.
Qed.

Lemma perform_isConnected a st : isConnected (perform a st) = isConnected st.
Proof.
  destruct a as [| |keys]; try reflexivity. cbn.
  revert st. induction keys as [|k keys IH]; intros st; [reflexivity|].
  cbn. rewrite IH, debouncedInvalidate_eq. cbn.
  by destruct (invalidationTimeoutRef st) as [[|n]|].
Qed.

Lemma cleanup_isConnected st : isConnected (exec cleanup st) = isConnected st.
Proof.
  rewrite cleanup_exec. cbn zeta.
  destruct (reconnectTimeoutRef st) as [[|a]|], (invalidationTimeoutRef st) as [[|b]|],
    (wsRef st); reflexivity.
Qed.

Lemma run_timer_exec id t st :
  exec (run_timer id t) st = exec (timer_callback (handler t)) (retime id t st).
Proof. unfold run_timer, retime, exec, bind. by destruct (interval t). Qed.

Lemma timer_callback_isConnected h st :
  isConnected (exec (timer_callback h) st) = isConnected st.
Proof.
  destruct h as [|ws|]; cbn [timer_callback].
  - rewrite connect_exec. by case_bool_decide.
  - rewrite ping_tick_exec. by case_bool_decide.
  - reflexivity.
Qed.

Lemma step_isConnected e st st' :
  step e st = Some st' →
  isConnected st' = match e with
                    | SockOpen _ => true
                    | SockClose _ => false
                    | _ => isConnected st
                    end.
Proof.
  intros Hstep. destruct e; cbn in Hstep.
  - case_bool_decide; [|discriminate]. by injection Hstep as <-.
  - case_bool_decide; [|discriminate]. injection Hstep as <-.
    unfold exec. rewrite ws_onmessage_exec. cbn.
    destruct (JSON_parse data); [apply perform_isConnected | reflexivity].
  - destruct (socket_readyState ws st) as [[]|]; try discriminate; by injection Hstep as <-.
  - assert (Hst : st' = exec (update_socket ws (set_readyState CLOSED) ;; ws_onclose ws) st)
      by (destruct (socket_readyState ws st) as [[]|]; congruence).
    subst st'. unfold ws_onclose, update_socket, exec, bind, gets, modify. cbn.
    destruct (_ ≫= pingInterval) as [[|p]|]; reflexivity.
  - destruct (timers st !! id) as [t|]; [|discriminate].
    case_bool_decide; [|discriminate]. injection Hstep as <-.
    rewrite run_timer_exec. by rewrite timer_callback_isConnected.
  - injection Hstep as <-. by rewrite animation_frame_exec.
  - unfold advance in Hstep. case_bool_decide; [|discriminate]. by injection Hstep as <-.
  - destruct (attached st); [|discriminate]. injection Hstep as <-.
    rewrite sendMessage_exec. destruct (wsRef st); [|done].
    destruct (JSON_stringify message); [|done]. by case_bool_decide.
  - destruct (attached st); [|discriminate]. injection Hstep as <-.
    cbn. apply cleanup_isConnected.
Qed.

Lemma run_isConnected tr st st' :
  run tr st = Some st' → isConnected st' = flag_of (last_lifecycle tr) (isConnected st).
Proof.
  revert st. induction tr as [|e tr IH]; intros st Hrun; cbn in Hrun.
  - by injection Hrun as <-.
  - destruct (step e st) as [st1|] eqn:Hs; [|discriminate].
    rewrite (IH _ Hrun), (step_isConnected _ _ _ Hs).
    unfold last_lifecycle.
    destruct e;
      first [ rewrite filter_cons_True by done; rewrite last_cons;
              by destruct (last (filter _ tr)) as [[]|]
            | by rewrite filter_cons_False by (cbn; tauto) ].
Qed.

(** C5, as amended.  After any run of the mounted hook the connected flag
    is true if and only if the most recent open or close event was an open
    event; an error event does not touch the flag. *)
Theorem connected_iff_last_lifecycle_is_open tr st :
  run tr mount = Some st →
  (isConnected st = true ↔ ∃ ws, last_lifecycle tr = Some (SockOpen ws)).
Proof.
  intros Hrun. rewrite (run_isConnected _ _ _ Hrun). cbn.
  destruct (last_lifecycle tr) as [[]|]; cbn; split; try done; try (intros [? [=]]); eauto.
Qed.














Lemma Inv_single_live st i j si sj :
  Inv st → sockets st !! i = Some si → sockets st !! j = Some sj →
  live si → live sj → i = j.
Proof.
  intros HI Hi Hj Li Lj.
  assert (Hci : wsRef st = Some i)
    by (eapply (inv_current _ HI); [done|]; destruct Li; congruence).
  assert (Hcj : wsRef st = Some j)
    by (eapply (inv_current _ HI); [done|]; destruct Lj; congruence).
  congruence.
Qed.

Lemma connect_open st : current_readyState st = Some OPEN → connect st = (Normal tt, st).
Proof. intros Ho. unfold connect, bind, gets. by rewrite bool_decide_eq_true_2. Qed.

(** C1, as amended.  When the handle in [wsRef] is open, [connect] is a
    no-op; and in every state the mounted hook can reach, at most one handle
    is connecting or open. *)
Theorem connect_is_noop_when_open_and_handles_never_overlap :
  (∀ st, current_readyState st = Some OPEN → connect st = (Normal tt, st))
  ∧ (∀ tr st i j si sj,
       run tr mount = Some st →
       sockets st !! i = Some si → sockets st !! j = Some sj →
       live si → live sj → i = j).
Proof.
  split; [apply connect_open|].
  intros tr st i j si sj Hrun. apply Inv_single_live.
  eapply run_Inv; [apply Inv_mount | exact Hrun].
Qed.

Lemma step_SockClose_inv ws st st' :
  step (SockClose ws) st = Some st' →
  ∃ x, sockets st !! ws = Some x ∧ readyState x ≠ CLOSED
       ∧ st' = exec (update_socket ws (set_readyState CLOSED) ;; ws_onclose ws) st.
Proof.
  cbn. destruct (socket_readyState ws st) as [r|] eqn:Hr; [|discriminate].
  destruct (socket_readyState_Some _ _ _ Hr) as (x & Hx & Hrx).
  intros Hs. exists x. split; [done|]. destruct r; try discriminate; split; congruence.
Qed.





(** ** The coalescer *)

Lemma set_add_elem k x s : x ∈ set_add k s ↔ x = k ∨ x ∈ s.
Proof.
  unfold set_add. case_bool_decide as Hk.
  - split; [auto|]. intros [-> | ?]; done.
  - rewrite elem_of_app, list_elem_of_singleton. tauto.
Qed.

Lemma set_add_NoDup k s : NoDup s → NoDup (set_add k s).
Proof.
  intros Hs. unfold set_add. case_bool_decide as Hk; [done|].
  apply NoDup_app. split; [done|]. split; [|apply NoDup_singleton].
  intros x Hx Hx'. apply list_elem_of_singleton in Hx'. by subst.
Qed.

Lemma armed_first k st :
  (0 < nextTimerId st)%nat →
  (∀ id t, timers st !! id = Some t → handler t ≠ FlushTimer) →
  armed (nextTimerId st) (exec (debouncedInvalidate k) st).
Proof.
  intros Hn Hnf. rewrite debouncedInvalidate_eq.
  destruct (invalidationTimeoutRef st) as [[|n]|]; constructor; cbn;
    try done; try apply lookup_insert_eq.
  all: intros j t Hj Hh; apply lookup_insert_Some in Hj as [[Hj _] | [_ Hj]]; [done|].
  all: exfalso; try (apply lookup_delete_Some in Hj as [_ Hj]); by eapply Hnf.
Qed.

Lemma armed_again n k dt st st1 :
  armed n st → advance dt st = Some st1 →
  armed (S n) (exec (debouncedInvalidate k) st1)
  ∧ 0 ≤ dt ≤ 100.
Proof.
  intros [Hp Hnx Hr Ht Ho] Hadv. unfold advance in Hadv.
  case_bool_decide as Hok; [|discriminate]. injection Hadv as <-.
  destruct Hok as [Hdt Hnt].
  pose proof (map_Forall_lookup_1 _ _ _ _ Hnt Ht) as Hdue. cbn in Hdue.
  split; [|lia].
  rewrite debouncedInvalidate_eq. cbn. rewrite Hr.
  destruct n as [|n]; [lia|]. cbn.
  constructor; cbn.
  - lia.
  - by rewrite Hnx.
  - by rewrite Hnx.
  - rewrite Hnx. apply lookup_insert_eq.
  - intros j t Hj Hh. rewrite Hnx in Hj.
    apply lookup_insert_Some in Hj as [[Hj _] | [_ Hj]]; [done|].
    apply lookup_delete_Some in Hj as [Hne Hj]. destruct Hne. symmetry. by eapply Ho.
Qed.

(** Fields a request leaves alone, and what it does to the pending set. *)
Lemma debouncedInvalidate_fields k st :
  let st' := exec (debouncedInvalidate k) st in
  pendingInvalidations st' = set_add k (pendingInvalidations st)
  ∧ invalidated st' = invalidated st ∧ rafQueue st' = rafQueue st
  ∧ now st' = now st ∧ queryData st' = queryData st ∧ sockets st' = sockets st.
Proof.
  cbn zeta. rewrite debouncedInvalidate_eq.
  by destruct (invalidationTimeoutRef st) as [[|n]|].
Qed.

Lemma burst_armed reqs n st st1 :
  armed n st → burst reqs st = Some st1 →
  armed (length reqs + n) st1
  ∧ pendingInvalidations st1 = foldl (λ s k, set_add k s) (pendingInvalidations st) reqs.*2
  ∧ invalidated st1 = invalidated st ∧ rafQueue st1 = rafQueue st
  ∧ now st1 = now st + foldr Z.add 0 reqs.*1
  ∧ Forall (λ dt, 0 ≤ dt ≤ 100) reqs.*1.
Proof.
  revert n st. induction reqs as [|[dt k] reqs IH]; intros n st Ha Hb; cbn in Hb.
  - injection Hb as <-. cbn. repeat split; try apply Ha; try done. lia.
  - destruct (advance dt st) as [sta|] eqn:Hadv; [|discriminate].
    destruct (armed_again n k dt st sta Ha Hadv) as [Ha' Hdt].
    destruct (IH _ _ Ha' Hb) as (Hr1 & Hr2 & Hr3 & Hr4 & Hr5 & Hr6).
    destruct (debouncedInvalidate_fields k sta) as (F1 & F2 & F3 & F4 & _).
    unfold advance in Hadv. case_bool_decide; [|discriminate]. injection Hadv as <-.
    cbn in *. split; [|split; [|split; [|split; [|split]]]].
    + by replace (S (length reqs + n)) with (length reqs + S n)%nat by lia.
    + by rewrite Hr2, F1.
    + by rewrite Hr3, F2.
    + by rewrite Hr4, F3.
    + rewrite Hr5, F4. lia.
    + by constructor.
Qed.

Lemma foldl_set_add_elem x s ks :
  x ∈ foldl (λ s k, set_add k s) s ks ↔ x ∈ s ∨ x ∈ ks.
Proof.
  revert s. induction ks as [|k ks IH]; intros s; cbn.
  - rewrite elem_of_nil. tauto.
  - rewrite IH, set_add_elem, elem_of_cons. tauto.
Qed.

Lemma foldl_set_add_NoDup s ks : NoDup s → NoDup (foldl (λ s k, set_add k s) s ks).
Proof.
  revert s. induction ks as [|k ks IH]; intros s Hs; cbn; [done|].
  by apply IH, set_add_NoDup.
Qed.

Lemma quiet_debounced h k st : quiet h st → quiet h (exec (debouncedInvalidate k) st).
Proof.
  intros Hq j t Hj Hh. rewrite debouncedInvalidate_eq in Hj. cbn in Hj.
  apply lookup_insert_Some in Hj as [[_ <-] | [_ Hj]]; [done|].
  destruct (invalidationTimeoutRef st) as [[|n]|]; cbn in Hj;
    try (apply lookup_delete_Some in Hj as [_ Hj]); by eapply Hq.
Qed.

Lemma advance_armed n h dt st :
  armed n st → quiet h st → 0 ≤ dt ≤ 100 → now st + dt ≤ h →
  advance dt st = Some (with_now (now st + dt) st).
Proof.
  intros Ha Hq Hdt Hh. unfold advance. rewrite bool_decide_eq_true_2; [done|].
  split; [lia|]. intros j t Hj. cbn.
  destruct (decide (handler t = FlushTimer)) as [Hf | Hnf].
  - pose proof (armed_only _ _ Ha _ _ Hj Hf) as ->.
    rewrite (armed_timer _ _ Ha) in Hj. injection Hj as <-. cbn. lia.
  - pose proof (Hq _ _ Hj Hnf). lia.
Qed.

Lemma burst_exists reqs n h st :
  armed n st → quiet h st →
  Forall (λ dt, 0 ≤ dt ≤ 100) reqs.*1 → now st + foldr Z.add 0 reqs.*1 ≤ h →
  (∀ dt, dt ∈ reqs.*1 → 0 ≤ dt) →
  ∃ st1, burst reqs st = Some st1 ∧ quiet h st1.
Proof.
  revert n st. induction reqs as [|[dt k] reqs IH]; intros n st Ha Hq Hf Hh Hpos; cbn.
  - eauto.
  - cbn in Hf, Hh. apply Forall_cons in Hf as [Hdt Hf].
    assert (Hsum : 0 ≤ foldr Z.add 0 reqs.*1).
    { clear -Hf. induction Hf; cbn; lia. }
    rewrite (advance_armed n h dt st Ha Hq Hdt) by lia.
    destruct (armed_again n k dt st _ Ha (advance_armed n h dt st Ha Hq Hdt ltac:(lia)))
      as [Ha' _].
    eapply IH; [exact Ha' | | exact Hf | | ].
    + apply quiet_debounced. intros j t Hj Hnf. by eapply Hq.
    + destruct (debouncedInvalidate_fields k (with_now (now st + dt) st))
        as (_ & _ & _ & -> & _). cbn. lia.
    + intros d Hd. apply Hpos. cbn. by right.
Qed.

Lemma flush_delivers n dt st1 st2 st3 st4 :
  armed n st1 → rafQueue st1 = [] →
  advance dt st1 = Some st2 → step (TimerFire n) st2 = Some st3 →
  step AnimationFrame st3 = Some st4 →
  dt = 100
  ∧ invalidated st3 = invalidated st1
  ∧ invalidated st4 = invalidated st1 ++ pendingInvalidations st1
  ∧ pendingInvalidations st4 = [] ∧ rafQueue st4 = []
  ∧ invalidationTimeoutRef st4 = None
  ∧ ∀ id t, timers st4 !! id = Some t → handler t ≠ FlushTimer.
Proof.
  intros [Hp Hnx Hr Ht Ho] Hraf Hadv Hfire Hframe.
  unfold advance in Hadv. case_bool_decide; [|discriminate]. injection Hadv as <-.
  unfold step in Hfire. cbn [timers with_now now] in Hfire. rewrite Ht in Hfire.
  cbn [due] in Hfire.
  case_bool_decide as Hdue; [|discriminate]. injection Hfire as <-.
  unfold step in Hframe. injection Hframe as <-.
  rewrite animation_frame_exec, run_timer_exec. cbn. rewrite Hraf. cbn.
  rewrite app_nil_r.
  split; [lia|]. repeat split; try done.
  intros id t Hid Hh. apply lookup_delete_Some in Hid as [Hne Hid].
  destruct Hne. symmetry. by eapply Ho.
Qed.

(** C4.  From a coalescer at rest, a first request followed by further
    requests, all within less than 100 ms and with no other timer falling
    due in between, arms one flush timer; nothing is invalidated before it
    fires, which is 100 ms after the last request and so not before the
    window has elapsed; the frame after the flush invalidates every distinct
    requested key exactly once, and the coalescer is at rest again. *)
Theorem requests_in_one_window_are_delivered_once st k0 reqs :
  idle st →
  (∀ dt, dt ∈ reqs.*1 → 0 ≤ dt) →
  foldr Z.add 0 reqs.*1 < 100 →
  (∀ id t, timers st !! id = Some t → now st + foldr Z.add 0 reqs.*1 + 100 ≤ due t) →
  ∃ st1 st2 st3 st4 keys,
    burst ((0, k0) :: reqs) st = Some st1
    ∧ invalidated st1 = invalidated st
    ∧ advance 100 st1 = Some st2
    ∧ now st + 100 ≤ now st2
    ∧ step (TimerFire (length reqs + nextTimerId st)) st2 = Some st3
    ∧ invalidated st3 = invalidated st
    ∧ step AnimationFrame st3 = Some st4
    ∧ invalidated st4 = invalidated st ++ keys
    ∧ NoDup keys
    ∧ (∀ k, k ∈ keys ↔ k ∈ k0 :: reqs.*2)
    ∧ pendingInvalidations st4 = [] ∧ rafQueue st4 = []
    ∧ (∀ id t, timers st4 !! id = Some t → handler t ≠ FlushTimer).
Proof.
  intros (Hn & Hpend & Hraf & Hnf) Hpos Hsum Hquiet.
  set (total := foldr Z.add 0 reqs.*1) in *.
  assert (Htot : 0 ≤ total).
  { subst total. clear -Hpos. induction reqs as [|[dt k] reqs IH]; cbn; [lia|].
    assert (0 ≤ dt) by (apply Hpos; cbn; by left).
    assert (0 ≤ foldr Z.add 0 reqs.*1) by (apply IH; intros d Hd; apply Hpos; cbn; by right).
    lia. }
  assert (Hbound : Forall (λ dt, 0 ≤ dt ≤ 100) reqs.*1).
  { subst total. clear -Hpos Hsum. induction reqs as [|[dt k] reqs IH]; cbn in *; [done|].
    assert (0 ≤ dt) by (apply Hpos; by left).
    assert (0 ≤ foldr Z.add 0 reqs.*1).
    { clear -Hpos. induction reqs as [|[d' k'] reqs IH]; cbn; [lia|].
      assert (0 ≤ d') by (apply Hpos; right; by left).
      assert (0 ≤ foldr Z.add 0 reqs.*1); [|lia].
      apply IH. intros d [-> | Hd]%elem_of_cons; apply Hpos; [by left | right; by right]. }
    constructor; [lia|]. apply IH; [|lia]. intros d Hd. apply Hpos. by right. }
  set (h := now st + total + 100).
  assert (Hadv0 : advance 0 st = Some (with_now (now st + 0) st)).
  { unfold advance. rewrite bool_decide_eq_true_2; [done|]. split; [lia|].
    intros j t Hj. cbn. pose proof (Hquiet _ _ Hj). lia. }
  set (sa := exec (debouncedInvalidate k0) (with_now (now st + 0) st)).
  assert (Ha : armed (nextTimerId st) sa)
    by (apply (armed_first k0 (with_now (now st + 0) st)); [exact Hn | exact Hnf]).
  assert (Hq : quiet h sa).
  { apply quiet_debounced. intros j t Hj _. by apply (Hquiet j). }
  destruct (debouncedInvalidate_fields k0 (with_now (now st + 0) st))
    as (F1 & F2 & F3 & F4 & _). fold sa in F1, F2, F3, F4. cbn in F1, F2, F3, F4.
  destruct (burst_exists reqs _ h sa Ha Hq Hbound) as (st1 & Hb & Hq1);
    [rewrite F4; subst h; lia | exact Hpos |].
  destruct (burst_armed reqs _ sa st1 Ha Hb) as (Ha1 & P1 & P2 & P3 & P4 & _).
  assert (Hadv : advance 100 st1 = Some (with_now (now st1 + 100) st1)).
  { eapply (advance_armed _ h); [exact Ha1 | exact Hq1 | lia |].
    rewrite P4, F4. subst h. fold total. lia. }
  set (st2 := with_now (now st1 + 100) st1).
  assert (Hfire : ∃ st3, step (TimerFire (length reqs + nextTimerId st)) st2 = Some st3).
  { cbn. rewrite (armed_timer _ _ Ha1). cbn.
    rewrite bool_decide_eq_true_2 by done. eauto. }
  destruct Hfire as [st3 Hfire].
  assert (Hraf1 : rafQueue st1 = []) by (by rewrite P3, F3).
  destruct (flush_delivers _ 100 st1 st2 st3 (exec animation_frame st3) Ha1 Hraf1 Hadv Hfire
              eq_refl) as (_ & G1 & G2 & G3 & G4 & G5 & G6).
  exists st1, st2, st3, (exec animation_frame st3), (pendingInvalidations st1).
  split; [cbn [burst]; by rewrite Hadv0|].
  split; [by rewrite P2, F2|]. split; [exact Hadv|].
  split; [subst st2; cbn; rewrite P4, F4; fold total; lia|].
  split; [exact Hfire|]. split; [by rewrite G1, P2, F2|]. split; [done|].
  split; [by rewrite G2, P2, F2|].
  split; [rewrite P1, F1, Hpend; apply foldl_set_add_NoDup, set_add_NoDup, NoDup_nil_2|].
  split; [|done].
  intros k. rewrite P1, F1, Hpend, foldl_set_add_elem, set_add_elem, elem_of_cons, elem_of_nil.
  tauto.
Qed.

(** ** More on the merge *)

Lemma spread_payload data acc : spread data acc = payload_props data ∪ acc.
Proof. destruct data; cbn; [done|]. by rewrite (left_id_L ∅ (∪)). Qed.

Lemma merge_printer_status_any_field data (old : option (gmap string jsval)) field :
  merge_printer_status data old !! field
  = merged_field (default ∅ old) (payload_props data) field.
Proof.
  rewrite <- (merge_printer_status_field old (payload_props data) field).
  unfold merge_printer_status. cbn [spread own_props]. by rewrite spread_payload.
Qed.

Lemma merge_printer_status_keeps_fields data (old : gmap string jsval) field :
  is_Some (old !! field) → is_Some (merge_printer_status data (Some old) !! field).
Proof.
  intros [v Hv]. rewrite merge_printer_status_any_field. cbn.
  unfold merged_field, shallow_union_field. rewrite Hv.
  destruct (bool_decide _ && _ && _); [by eexists|].
  destruct (payload_props data !! field); by eexists.
Qed.

Lemma merge_printer_status_keeps_wifi data (old : gmap string jsval) :
  nullish (old !! "wifi_signal") = false →
  nullish (merge_printer_status data (Some old) !! "wifi_signal") = false.
Proof.
  intros Hn. rewrite merge_printer_status_any_field. cbn.
  unfold merged_field, shallow_union_field. rewrite bool_decide_eq_true_2 by done.
  destruct (old !! "wifi_signal") as [[]|]; try discriminate;
    destruct (payload_props data !! "wifi_signal") as [[]|]; reflexivity.
Qed.

(** A merge never loses what the snapshot had: every field that was present
    is still present, a [wifi_signal] that was not null is not null
    afterwards, whatever the payload is; and merging the same payload a
    second time changes nothing. *)
Theorem merge_printer_status_keeps_what_is_known data (old : gmap string jsval) :
  (∀ field, is_Some (old !! field) → is_Some (merge_printer_status data (Some old) !! field))
  ∧ (nullish (old !! "wifi_signal") = false →
     nullish (merge_printer_status data (Some old) !! "wifi_signal") = false)
  ∧ merge_printer_status data (Some (merge_printer_status data (Some old)))
    = merge_printer_status data (Some old).
Proof.
  split; [|split].
  - intros field. apply merge_printer_status_keeps_fields.
  - apply merge_printer_status_keeps_wifi.
  - apply map_eq. intros field.
    rewrite !merge_printer_status_any_field. cbn.
    unfold merged_field at 1. unfold shallow_union_field at 1 2.
    rewrite !merge_printer_status_any_field. cbn.
    unfold merged_field, shallow_union_field.
    destruct (bool_decide_reflect (field = "wifi_signal")) as [-> | Hne]; cbn.
    + destruct (payload_props data !! "wifi_signal") as [[]|];
        destruct (old !! "wifi_signal") as [[]|]; reflexivity.
    + destruct (payload_props data !! field); reflexivity.
Qed.

(** ** Events in closed form *)

Lemma step_cases e st st' : Inv st → step e st = Some st' → step_result e st st'.
Proof.
  intros HI Hstep. destruct e; cbn in Hstep; cbn [step_result].
  - case_bool_decide; [|discriminate]. by injection Hstep as <-.
  - case_bool_decide; [|discriminate]. injection Hstep as <-.
    split; [done|]. unfold exec. by rewrite ws_onmessage_exec.
  - destruct (socket_readyState ws st) as [r|] eqn:Hr; [|discriminate].
    destruct (socket_readyState_Some _ _ _ Hr) as (x & Hx & Hrx).
    destruct r; try discriminate; injection Hstep as <-;
      (split; [exists x; split; [done | congruence] | done]).
  - destruct (step_SockClose_inv ws st st') as (x & Hx & Hrx & ->); [exact Hstep|].
    exists x. split; [done|]. split; [done|]. by apply ws_onclose_exec.
  - destruct (timers st !! id) as [t|] eqn:Ht; [|discriminate].
    case_bool_decide; [|discriminate]. injection Hstep as <-.
    exists t. split; [done|]. split; [done|]. apply run_timer_exec.
  - injection Hstep as <-. apply animation_frame_exec.
  - unfold advance in Hstep. case_bool_decide as Hd; [|discriminate].
    injection Hstep as <-. by destruct Hd.
  - destruct (attached st); [|discriminate]. by injection Hstep as <-.
  - destruct (attached st); [|discriminate]. by injection Hstep as <-.
Qed.

(** Induction over the runs of the mounted hook. *)
Lemma run_snoc tr e st st' :
  run (tr ++ [e]) st = Some st' ↔ ∃ st1, run tr st = Some st1 ∧ step e st1 = Some st'.
Proof.
  revert st. induction tr as [|e0 tr IH]; intros st; cbn.
  - destruct (step e st) as [s|] eqn:Hs; split.
    + intros [= <-]. eauto.
    + intros (st1 & [= <-] & Hs'). congruence.
    + discriminate.
    + intros (st1 & [= <-] & Hs'). congruence.
  - destruct (step e0 st) as [s|]; [apply IH|]. split; [discriminate|].
    by intros (? & ? & ?).
Qed.

Lemma reachable_ind (P : State → Prop) :
  P mount →
  (∀ e st st', Inv st → P st → step e st = Some st' → P st') →
  ∀ tr st, run tr mount = Some st → P st.
Proof.
  intros Hm Hs tr. induction tr as [|e tr IH] using rev_ind; intros st Hrun.
  - cbn in Hrun. by injection Hrun as <-.
  - apply run_snoc in Hrun as (st1 & Hrun & Hstep).
    eapply Hs; [|by apply IH|exact Hstep]. eapply run_Inv; [apply Inv_mount | exact Hrun].
Qed.

(** ** Handlers and exceptions *)

Lemma handleMessage_completion message st :
  (handleMessage message st).1
  = match message with JNull => Throw TypeError | _ => Normal tt end.
Proof.
  destruct (jsval_null_or_not message) as [-> | Hnn]; [reflexivity|].
  assert (Hgoal : (handleMessage message st).1 = Normal tt).
  { unfold handleMessage. rewrite !(get_prop_object _ _ Hnn). unfold bind, ret.
    destruct (own_props message !! "type") as [[| | |t| |]|]; try reflexivity.
    repeat case_bool_decide; try reflexivity.
    - destruct (own_props message !! "printer_id"); reflexivity.
    - rewrite debouncedInvalidate_normal. by rewrite debouncedInvalidate_normal.
    - rewrite debouncedInvalidate_normal. by rewrite debouncedInvalidate_normal.
    - by rewrite debouncedInvalidate_normal. }
  rewrite Hgoal. by destruct message.
Qed.

(** No event handler and no timer callback lets an exception out; the one
    call that can raise is [sendMessage], to its caller.  [handleMessage]
    raises exactly on a frame that decodes to [null], and [ws.onmessage]
    catches that as it catches a decoding error; the keepalive callback
    only sends on an open handle, and its frame is plain data, so neither
    [JSON.stringify] nor [send] can raise in it; [sendMessage] raises
    exactly when the handle is open and [JSON.stringify] rejects the
    message, and then it is the [TypeError] of [JSON.stringify]; the others
    have nothing that raises. *)
Theorem exceptions_escape_only_from_sendMessage st :
  (∀ data, (ws_onmessage data st).1 = Normal tt)
  ∧ (∀ message, (handleMessage message st).1 = Throw TypeError ↔ message = JNull)
  ∧ (∀ message, message ≠ JNull → (handleMessage message st).1 = Normal tt)
  ∧ (∀ ws, (ping_tick ws st).1 = Normal tt)
  ∧ (∀ message,
       ((sendMessage message st).1 = Throw TypeError
        ↔ current_readyState st = Some OPEN ∧ JSON_stringify message = None)
       ∧ ((sendMessage message st).1 = Normal tt
          ↔ current_readyState st ≠ Some OPEN ∨ is_Some (JSON_stringify message)))
  ∧ (connect st).1 = Normal tt
  ∧ (cleanup st).1 = Normal tt
  ∧ (flush_pending st).1 = Normal tt
  ∧ (∀ ws, (ws_onopen ws st).1 = Normal tt
           ∧ (ws_onclose ws st).1 = Normal tt
           ∧ (ws_onerror ws st).1 = Normal tt).
Proof.
  split; [|split; [|split; [|split; [|split; [|split; [|split; [|split]]]]]]].
  - intros data. by rewrite ws_onmessage_exec.
  - intros message. rewrite handleMessage_completion. by destruct message.
  - intros message Hnn. rewrite handleMessage_completion. by destruct message.
  - intros ws. by rewrite ping_tick_eq.
  - intros message. destruct (decide (current_readyState st = Some OPEN)) as [Ho | Hn].
    + destruct (current_open_inv st Ho) as (ws & s & Hw & Hs & Hr).
      destruct (JSON_stringify message) as [frame|] eqn:Hj.
      * rewrite (sendMessage_open message frame st ws s Hw Hs Hr Hj). cbn.
        split; [split; [done | by intros [_ ?]]|]. split; [|done]. intros _. right. by eexists.
      * rewrite (sendMessage_rejected message st Ho Hj). cbn.
        split; [done|]. split; [done|]. intros [? | [? ?]]; done.
    + rewrite sendMessage_not_open by done. cbn.
      split; [split; [done | by intros [? _]]|]. split; [by left | done].
  - unfold connect, bind, gets. by case_bool_decide.
  - unfold cleanup, bind, gets.
    rewrite when_truthy_clear_normal. rewrite when_truthy_clear_normal.
    by destruct (wsRef _).
  - reflexivity.
  - intros ws. split; [reflexivity|]. split; [|reflexivity].
    unfold ws_onclose, bind, gets. by destruct (_ ≫= pingInterval) as [[|p]|].
Qed.

Lemma debounced_flush_timer k st :
  let st' := exec (debouncedInvalidate k) st in
  invalidationTimeoutRef st' = Some (nextTimerId st)
  ∧ timers st' !! nextTimerId st
    = Some {| handler := FlushTimer; due := now st + 100; interval := None |}
  ∧ nextTimerId st' = S (nextTimerId st).
Proof.
  cbn zeta. rewrite debouncedInvalidate_eq.
  destruct (invalidationTimeoutRef st) as [[|n]|]; cbn;
    (split; [done|]); (split; [apply lookup_insert_eq | done]).
Qed.

(** A frame other than [printer_status] never writes cache data, and no
    frame invalidates anything at once: [print_complete] and
    [archive_created] add [archives] and [archiveStats] to the pending set,
    [archive_updated] adds [archives], each re-arming the flush 100 ms
    ahead; [pong] changes nothing at all. *)
Theorem collection_frames_only_request_invalidation message t st :
  message_type message = Some t →
  let st' := exec (handleMessage message) st in
  (t = "print_complete" ∨ t = "archive_created" →
     pendingInvalidations st'
     = set_add "archiveStats" (set_add "archives" (pendingInvalidations st)))
  ∧ (t = "archive_updated" →
     pendingInvalidations st' = set_add "archives" (pendingInvalidations st))
  ∧ (t = "pong" → st' = st)
  ∧ (t ≠ "printer_status" → queryData st' = queryData st)
  ∧ invalidated st' = invalidated st
  ∧ rafQueue st' = rafQueue st
  ∧ sockets st' = sockets st
  ∧ (t ∈ ["print_complete"; "archive_created"; "archive_updated"] →
     ∃ id, invalidationTimeoutRef st' = Some id
           ∧ timers st' !! id
             = Some {| handler := FlushTimer; due := now st + 100; interval := None |}).
Proof.
  intros Hty. cbn zeta. rewrite handleMessage_exec. unfold route.
  unfold message_type in Hty.
  destruct (own_props message !! "type") as [[| | |t'| |]|]; try discriminate.
  injection Hty as ->.
  set (s1 := exec (debouncedInvalidate "archives") st).
  destruct (debouncedInvalidate_fields "archives" st) as (A1 & A2 & A3 & A4 & A5 & A6).
  destruct (debouncedInvalidate_fields "archiveStats" s1) as (B1 & B2 & B3 & B4 & B5 & B6).
  destruct (debounced_flush_timer "archives" st) as (C1 & C2 & C3).
  destruct (debounced_flush_timer "archiveStats" s1) as (D1 & D2 & D3).
  fold s1 in A1, A2, A3, A4, A5, A6, C1, C2, C3.
  repeat case_bool_decide; subst; cbn [perform foldl].
  - (* printer_status *)
    destruct (own_props message !! "printer_id"); cbn;
      repeat split; try done; try (by intros [? | ?]);
      intros Hin; set_solver.
  - fold s1. rewrite B1, A1, B2, A2, B3, A3, B5, A5, B6, A6.
    repeat split; try done.
    intros _. eexists. split; [exact D1|]. by rewrite D2, A4.
  - fold s1. rewrite B1, A1, B2, A2, B3, A3, B5, A5, B6, A6.
    repeat split; try done.
    intros _. eexists. split; [exact D1|]. by rewrite D2, A4.
  - fold s1. rewrite A1, A2, A3, A5, A6.
    repeat split; try done; try (by intros [? | ?]).
    intros _. eexists. split; [exact C1|]. exact C2.
  - repeat split; try done; try (by intros [? | ?]).
    intros Hin. set_solver.
Qed.

(** ** The cache *)

Lemma perform_invalidate_queryData keys st :
  queryData (foldl (λ s k, exec (debouncedInvalidate k) s) st keys) = queryData st.
Proof.
  revert st. induction keys as [|k keys IH]; intros st; [done|]. cbn. rewrite IH.
  by destruct (debouncedInvalidate_fields k st) as (_ & _ & _ & _ & -> & _).
Qed.

Lemma timer_callback_queryData h st :
  queryData (exec (timer_callback h) st) = queryData st.
Proof.
  destruct h as [|ws|]; cbn [timer_callback].
  - rewrite connect_exec. by case_bool_decide.
  - rewrite ping_tick_exec. by case_bool_decide.
  - reflexivity.
Qed.

Lemma cleanup_queryData st : queryData (exec cleanup st) = queryData st.
Proof.
  rewrite cleanup_exec. cbn zeta.
  destruct (reconnectTimeoutRef st) as [[|a]|], (invalidationTimeoutRef st) as [[|b]|],
    (wsRef st); reflexivity.
Qed.

Lemma step_queryData e st st' :
  Inv st → step e st = Some st' →
  queryData st' = queryData st
  ∨ ∃ ws data message id,
      e = SockMessage ws data
      ∧ JSON_parse data = Some message
      ∧ message_type message = Some "printer_status"
      ∧ own_props message !! "printer_id" = Some id
      ∧ queryData st'
        = <[hashKey [JStr "printerStatus"; id] :=
              merge_printer_status (own_props message !! "data")
                (queryData st !! hashKey [JStr "printerStatus"; id])]> (queryData st).
Proof.
  intros HI Hstep. pose proof (step_cases _ _ _ HI Hstep) as Hc.
  destruct e; cbn [step_result] in Hc.
  - left. destruct Hc as [_ ->]. reflexivity.
  - destruct Hc as [_ ->]. destruct (JSON_parse data) as [message|] eqn:Hp; [|by left].
    unfold route, message_type.
    destruct (own_props message !! "type") as [[| | |t| |]|] eqn:Hty; try (by left).
    repeat case_bool_decide; subst; try (by left);
      try (left; apply perform_invalidate_queryData).
    destruct (own_props message !! "printer_id") as [id|] eqn:Hid; [|by left].
    right. exists ws, data, message, id. cbn. rewrite Hty. by repeat split.
  - left. by destruct Hc as [_ ->].
  - left. by destruct Hc as (x & _ & _ & ->).
  - left. destruct Hc as (t & _ & _ & ->). by rewrite timer_callback_queryData.
  - left. by subst st'.
  - left. by destruct Hc as (_ & _ & ->).
  - left. destruct Hc as [_ ->]. rewrite sendMessage_exec.
    destruct (wsRef st); [|done]. destruct (JSON_stringify message); [|done]. by case_bool_decide.
  - left. destruct Hc as [_ ->]. cbn. apply cleanup_queryData.
Qed.

(** The cache is written by one thing only: a [printer_status] frame that
    names its printer, and then only under the key of that printer. *)
Theorem cache_written_only_by_status_frames e st st' :
  Inv st → step e st = Some st' →
  queryData st' = queryData st
  ∨ ∃ ws data message id,
      e = SockMessage ws data
      ∧ JSON_parse data = Some message
      ∧ message_type message = Some "printer_status"
      ∧ own_props message !! "printer_id" = Some id
      ∧ queryData st'
        = <[hashKey [JStr "printerStatus"; id] :=
              merge_printer_status (own_props message !! "data")
                (queryData st !! hashKey [JStr "printerStatus"; id])]> (queryData st).
Proof. apply step_queryData. Qed.

Lemma remembers_refl q : remembers q q.
Proof. intros key S HS. exists S. by repeat split. Qed.

Lemma remembers_trans a b c : remembers a b → remembers b c → remembers a c.
Proof.
  intros Hab Hbc key S HS. destruct (Hab key S HS) as (S1 & H1 & F1 & W1).
  destruct (Hbc key S1 H1) as (S2 & H2 & F2 & W2). exists S2. repeat split; auto.
Qed.

(** Along any run the cache only grows: an entry stays, each of its fields
    stays present, and a [wifi_signal] once known is never null again. *)
Theorem cache_never_forgets tr st st' :
  Inv st → run tr st = Some st' → remembers (queryData st) (queryData st').
Proof.
  revert st. induction tr as [|e tr IH]; intros st HI Hrun; cbn in Hrun.
  - injection Hrun as <-. apply remembers_refl.
  - destruct (step e st) as [st1|] eqn:Hs; [|discriminate].
    eapply remembers_trans; [|eapply IH; [by eapply step_Inv | exact Hrun]].
    destruct (step_queryData _ _ _ HI Hs)
      as [-> | (ws & data & message & id & _ & _ & _ & _ & ->)];
      [apply remembers_refl|].
    intros key S HS.
    destruct (decide (hashKey [JStr "printerStatus"; id] = key)) as [<- | Hne].
    + rewrite lookup_insert_eq, HS. eexists. split; [done|]. split.
      * intros field. apply merge_printer_status_keeps_fields.
      * apply merge_printer_status_keeps_wifi.
    + rewrite lookup_insert_ne by done. exists S. by repeat split.
Qed.

(** ** What is invalidated *)

Lemma when_truthy_clear_exec r st :
  exec (when_truthy r clearTimeout) st = with_timers (clear_timer r (timers st)) st.
Proof. destruct r as [[|n]|]; try reflexivity; by destruct st. Qed.

Lemma cleanup_closed st :
  exec cleanup st
  = let st2 := with_timers (clear_timer (invalidationTimeoutRef st)
                              (clear_timer (reconnectTimeoutRef st) (timers st))) st in
    match wsRef st with
    | Some ws => with_sockets (alter start_closing ws (sockets st)) st2
    | None => st2
    end.
Proof.
  rewrite cleanup_exec. cbn zeta. rewrite !when_truthy_clear_exec. cbn.
  by destruct (wsRef st).
Qed.

Lemma debounced_closed k st :
  exec (debouncedInvalidate k) st
  = with_pendingInvalidations (set_add k (pendingInvalidations st))
      (with_invalidationTimeoutRef (Some (nextTimerId st))
         (with_nextTimerId (S (nextTimerId st))
            (with_timers
               (<[nextTimerId st := {| handler := FlushTimer; due := now st + 100;
                                       interval := None |}]>
                  (clear_timer (invalidationTimeoutRef st) (timers st))) st))).
Proof. rewrite debouncedInvalidate_eq, when_truthy_clear_exec. reflexivity. Qed.

Lemma batch_set_add k keys : k ∈ collection_keys → batch keys → batch (set_add k keys).
Proof.
  intros Hk [Hnd Hin]. split; [by apply set_add_NoDup|].
  intros x [-> | Hx]%set_add_elem; auto.
Qed.

Lemma batch_length keys : batch keys → (length keys ≤ 2)%nat.
Proof.
  intros [Hnd Hin].
  assert (Hsub : keys ⊆+ collection_keys) by (by apply NoDup_submseteq).
  by apply submseteq_length in Hsub.
Qed.

Lemma elem_of_concat {A} (x : A) (ls : list (list A)) :
  x ∈ concat ls → ∃ l, x ∈ l ∧ l ∈ ls.
Proof.
  induction ls as [|l ls IH]; cbn; [by intros ?%elem_of_nil|].
  intros [Hx | Hx]%elem_of_app.
  - exists l. split; [done | by left].
  - destruct (IH Hx) as (l' & ? & ?). exists l'. split; [done | by right].
Qed.

Lemma logs_ok_same a b :
  pendingInvalidations b = pendingInvalidations a → rafQueue b = rafQueue a →
  invalidated b = invalidated a → logs_ok a → logs_ok b.
Proof. unfold logs_ok. by intros -> -> ->. Qed.

Lemma logs_ok_debounced k st :
  k ∈ collection_keys → logs_ok st → logs_ok (exec (debouncedInvalidate k) st).
Proof.
  intros Hk (Hp & Hr & Hi). rewrite debounced_closed. split; [|done].
  by apply batch_set_add.
Qed.

Lemma logs_ok_step e st st' : Inv st → logs_ok st → step e st = Some st' → logs_ok st'.
Proof.
  intros HI Hl Hstep. pose proof (step_cases _ _ _ HI Hstep) as Hc.
  destruct e; cbn [step_result] in Hc.
  - destruct Hc as [_ ->]. by eapply logs_ok_same.
  - destruct Hc as [_ ->]. destruct (JSON_parse data) as [message|]; [|done].
    unfold route. destruct (own_props message !! "type") as [[| | |t| |]|]; try done.
    repeat case_bool_decide; try done; cbn [perform foldl].
    + destruct (own_props message !! "printer_id"); [|done]. by eapply logs_ok_same.
    + apply logs_ok_debounced, logs_ok_debounced; [set_solver | set_solver | done].
    + apply logs_ok_debounced, logs_ok_debounced; [set_solver | set_solver | done].
    + apply logs_ok_debounced; [set_solver | done].
  - destruct Hc as [_ ->]. by eapply logs_ok_same.
  - destruct Hc as (x & _ & _ & ->). by eapply logs_ok_same.
  - destruct Hc as (t & _ & _ & ->). destruct (handler t) as [|ws|]; cbn [timer_callback].
    + rewrite connect_exec. case_bool_decide; by eapply logs_ok_same.
    + rewrite ping_tick_exec. case_bool_decide; by eapply logs_ok_same.
    + destruct Hl as (Hp & Hr & Hi). split; [|split]; cbn.
      * split; [apply NoDup_nil_2 | by intros k ?%elem_of_nil].
      * apply Forall_app. split; [done|]. by apply Forall_singleton.
      * done.
  - subst st'. destruct Hl as (Hp & Hr & Hi). split; [done|]. split; [by constructor|].
    cbn. intros k [Hk | Hk]%elem_of_app; [auto|].
    apply elem_of_concat in Hk as (cb & Hk & Hcb).
    rewrite Forall_forall in Hr. by apply (Hr cb Hcb).
  - destruct Hc as (_ & _ & ->). by eapply logs_ok_same.
  - destruct Hc as [_ ->]. rewrite sendMessage_exec.
    destruct (wsRef st); [|done].
    destruct (JSON_stringify message); [|done]. case_bool_decide; [|done]. by eapply logs_ok_same.
  - destruct Hc as [_ ->]. rewrite cleanup_closed. cbn zeta.
    destruct (wsRef st); by eapply logs_ok_same.
Qed.

(** Whatever arrives, the hook only ever invalidates [archives] and
    [archiveStats], and a flush never carries more than these two, each
    once. *)
Theorem only_the_archive_collections_are_invalidated tr st :
  run tr mount = Some st →
  (∀ k, k ∈ invalidated st → k = "archives" ∨ k = "archiveStats")
  ∧ (length (pendingInvalidations st) ≤ 2)%nat ∧ NoDup (pendingInvalidations st)
  ∧ Forall (λ keys, (length keys ≤ 2)%nat ∧ NoDup keys) (rafQueue st)
  ∧ (∀ k, k ∈ pendingInvalidations st → k = "archives" ∨ k = "archiveStats")
  ∧ Forall (λ keys, ∀ k, k ∈ keys → k = "archives" ∨ k = "archiveStats") (rafQueue st).
Proof.
  intros Hrun.
  assert (Hc : ∀ k, k ∈ collection_keys → k = "archives" ∨ k = "archiveStats").
  { intros k Hk. unfold collection_keys in Hk. set_solver. }
  assert (Hl : logs_ok st).
  { revert tr st Hrun. apply reachable_ind.
    - split; [|split].
      + split; [apply NoDup_nil_2 | by intros k ?%elem_of_nil].
      + constructor.
      + by intros k ?%elem_of_nil.
    - intros e st st' HI Hl Hs. by eapply logs_ok_step. }
  destruct Hl as (Hp & Hr & Hi). split; [|split; [|split; [|split; [|split]]]].
  - intros k Hk. by apply Hc, Hi.
  - by apply batch_length.
  - apply Hp.
  - eapply Forall_impl; [exact Hr|]. intros keys Hb. split; [by apply batch_length | apply Hb].
  - intros k Hk. by apply Hc, Hp.
  - eapply Forall_impl; [exact Hr|]. intros keys Hb k Hk. by apply Hc, Hb.
Qed.

(** ** Teardown, endpoint, reconnect *)

Lemma clear_timer_lookup r m id t :
  clear_timer r m !! id = Some t → m !! id = Some t ∧ (r = Some id → id = 0%nat).
Proof.
  destruct r as [[|n]|]; cbn.
  - intros Hm. split; [done|]. by intros [= <-].
  - intros [Hne Hm]%lookup_delete_Some. split; [done|]. intros [= <-]. done.
  - intros Hm. split; [done|]. discriminate.
Qed.

Lemma cleanup_reach st st' :
  Inv st → st' = with_attached false (exec cleanup st) →
  (∀ id t, timers st' !! id = Some t → ∃ ws, handler t = PingTimer ws)
  ∧ (∀ i s, sockets st' !! i = Some s → readyState s = CLOSING ∨ readyState s = CLOSED)
  ∧ wsRef st' = wsRef st
  ∧ pendingInvalidations st' = pendingInvalidations st
  ∧ rafQueue st' = rafQueue st
  ∧ attached st' = false.
Proof.
  intros HI ->. rewrite cleanup_closed. cbn zeta.
  split; [|split].
  - intros id t Ht.
    assert (Ht' : clear_timer (invalidationTimeoutRef st)
                    (clear_timer (reconnectTimeoutRef st) (timers st)) !! id = Some t)
      by (by destruct (wsRef st)).
    apply clear_timer_lookup in Ht' as [Ht' Hf]. apply clear_timer_lookup in Ht' as [Ht' Hr].
    pose proof (inv_timer_ids _ HI _ _ Ht') as Hpos.
    destruct (handler t) as [|ws|] eqn:Hh; [| by eexists |].
    + destruct (inv_reconnect _ HI _ _ Ht' Hh) as (_ & Href & _). specialize (Hr Href). lia.
    + destruct (inv_flush _ HI _ _ Ht' Hh) as (Href & _). specialize (Hf Href). lia.
  - intros i s Hs. destruct (wsRef st) as [ws|] eqn:Hw; cbn in Hs.
    + apply alter_lookup_Some in Hs as (x & Hx & [[-> ->] | [Hne ->]]).
      * unfold start_closing. destruct (readyState x) eqn:Hr; cbn; auto.
      * destruct (readyState x) eqn:Hr; auto;
          assert (Some ws = Some i) by (rewrite <- Hw; eapply (inv_current _ HI); [done|congruence]);
          congruence.
    + destruct (readyState s) eqn:Hr; auto;
        assert (None = Some i) by (rewrite <- Hw; eapply (inv_current _ HI); [done|congruence]);
        congruence.
  - destruct (wsRef st) eqn:Hw; cbn; rewrite ?Hw; by repeat split.
Qed.

(** What teardown does reach: right after unmount no reconnect timer and no
    flush timer is pending (only a keepalive timer can be left), and no
    handle is connecting or open.  The handle reference, the pending keys
    and the queued frame callbacks are left as they were. *)
Theorem unmount_cancels_reconnect_and_flush tr st st' :
  run tr mount = Some st → step Unmount st = Some st' →
  (∀ id t, timers st' !! id = Some t → ∃ ws, handler t = PingTimer ws)
  ∧ (∀ i s, sockets st' !! i = Some s → readyState s = CLOSING ∨ readyState s = CLOSED)
  ∧ wsRef st' = wsRef st
  ∧ pendingInvalidations st' = pendingInvalidations st
  ∧ rafQueue st' = rafQueue st
  ∧ attached st' = false.
Proof.
  intros Hrun Hstep.
  assert (HI : Inv st) by (eapply run_Inv; [apply Inv_mount | exact Hrun]).
  destruct (step_cases _ _ _ HI Hstep) as [_ Hst]. by apply cleanup_reach.
Qed.

Lemma url_alter (f : WebSocket → WebSocket) ws (l : list WebSocket) (u : string) :
  (∀ s, url (f s) = url s) → Forall (λ s, url s = u) l → Forall (λ s, url s = u) (alter f ws l).
Proof.
  intros Hf Hl. apply Forall_lookup. intros i s Hs. rewrite Forall_lookup in Hl.
  apply alter_lookup_Some in Hs as (x & Hx & [[-> ->] | [Hne ->]]).
  - rewrite Hf. by eapply Hl.
  - by eapply Hl.
Qed.

Lemma start_closing_url s : url (start_closing s) = url s.
Proof. unfold start_closing. by destruct (readyState s). Qed.

(** Every handle the hook ever builds points at the one endpoint derived
    from the page: [wss:] when the page is served over https, [ws:]
    otherwise, same host, path [/api/v1/ws]. *)
Theorem every_handle_uses_the_page_endpoint tr st :
  run tr mount = Some st →
  Forall (λ s, url s = wsUrl) (sockets st)
  ∧ wsUrl = (if bool_decide (location_protocol = "https:") then "wss:" else "ws:")
            +:+ "//" +:+ location_host +:+ "/api/v1/ws".
Proof.
  intros Hrun. split; [|reflexivity]. revert tr st Hrun. apply reachable_ind.
  - rewrite mount_eq. cbn. by constructor.
  - intros e st st' HI Hu Hstep. pose proof (step_cases _ _ _ HI Hstep) as Hc.
    destruct e; cbn [step_result] in Hc.
    + destruct Hc as [_ ->]. cbn. by apply url_alter, url_alter.
    + destruct Hc as [_ ->]. destruct (JSON_parse data) as [message|]; [|done].
      rewrite <- handleMessage_exec.
      assert (Hs : sockets (exec (handleMessage message) st) = sockets st).
      { rewrite handleMessage_exec. unfold route.
        destruct (own_props message !! "type") as [[| | |t| |]|]; try done.
        repeat case_bool_decide; try done; cbn [perform foldl];
          rewrite ?debounced_closed; try done.
        by destruct (own_props message !! "printer_id"). }
      by rewrite Hs.
    + destruct Hc as [_ ->]. cbn. apply url_alter; [apply start_closing_url | done].
    + destruct Hc as (x & _ & _ & ->). cbn. by apply url_alter.
    + destruct Hc as (t & _ & _ & ->). destruct (handler t) as [|ws|]; cbn [timer_callback].
      * rewrite connect_exec. case_bool_decide; [done|]. cbn.
        apply Forall_app. split; [done|]. by constructor.
      * rewrite ping_tick_exec. case_bool_decide; [|done]. cbn. by apply url_alter.
      * done.
    + by subst st'.
    + by destruct Hc as (_ & _ & ->).
    + destruct Hc as [_ ->]. rewrite sendMessage_exec. destruct (wsRef st); [|done].
      destruct (JSON_stringify message); [|done].
      case_bool_decide; [|done]. cbn. by apply url_alter.
    + destruct Hc as [_ ->]. rewrite cleanup_closed. cbn zeta.
      destruct (wsRef st); [|done]. cbn. apply url_alter; [apply start_closing_url | done].
Qed.

Lemma reconnect_timer_fires st id t st' :
  Inv st →
  timers st !! id = Some t → handler t = ReconnectTimer →
  step (TimerFire id) st = Some st' →
  wsRef st = None
  ∧ Forall (λ s, readyState s = CLOSED) (sockets st)
  ∧ sockets st' = sockets st ++ [{| url := wsUrl; readyState := CONNECTING; sent := [];
                                    pingInterval := None |}]
  ∧ wsRef st' = Some (length (sockets st))
  ∧ timers st' = delete id (timers st)
  ∧ (∀ j t', timers st' !! j = Some t' → handler t' ≠ ReconnectTimer).
Proof.
  intros HI Ht Hh Hstep.
  destruct (inv_reconnect _ HI _ _ Ht Hh) as (Hw & Href & Hiv).
  destruct (step_cases _ _ _ HI Hstep) as (t0 & Ht0 & _ & ->).
  rewrite Ht in Ht0. injection Ht0 as <-. rewrite Hh. cbn [timer_callback].
  rewrite connect_exec. unfold retime. rewrite Hiv.
  assert (Hcur : current_readyState (with_timers (delete id (timers st)) st) = None)
    by (unfold current_readyState; cbn; by rewrite Hw).
  rewrite Hcur, bool_decide_eq_false_2 by done. cbn.
  split; [done|]. split; [|repeat split].
  - apply Forall_lookup. intros i s Hs. destruct (decide (readyState s = CLOSED)); [done|].
    pose proof (inv_current _ HI _ _ Hs n). congruence.
  - intros j t' [Hne Hj]%lookup_delete_Some Hh'.
    destruct (inv_reconnect _ HI _ _ Hj Hh') as (_ & Href' & _). congruence.
Qed.

(** When a reconnect timer fires, every earlier handle is closed, and
    [connect] does build a handle: exactly one, connecting, to the page
    endpoint, held by [wsRef]; no reconnect is pending afterwards. *)
Theorem reconnect_builds_one_connecting_handle tr st id t st' :
  run tr mount = Some st →
  timers st !! id = Some t → handler t = ReconnectTimer →
  step (TimerFire id) st = Some st' →
  wsRef st = None
  ∧ Forall (λ s, readyState s = CLOSED) (sockets st)
  ∧ sockets st' = sockets st ++ [{| url := wsUrl; readyState := CONNECTING; sent := [];
                                    pingInterval := None |}]
  ∧ wsRef st' = Some (length (sockets st))
  ∧ timers st' = delete id (timers st)
  ∧ (∀ j t', timers st' !! j = Some t' → handler t' ≠ ReconnectTimer).
Proof.
  intros Hrun. apply reconnect_timer_fires.
  eapply run_Inv; [apply Inv_mount | exact Hrun].
Qed.

(** ** The connected flag *)

Lemma linked_alter (f : WebSocket → WebSocket) ws st :
  (∀ s, pingInterval (f s) = pingInterval s) →
  linked (with_sockets (alter f ws (sockets st)) st) ↔ linked st.
Proof.
  intros Hf. unfold linked. cbn. split.
  - intros (i & s & Hw & Hs & Hp).
    apply alter_lookup_Some in Hs as (x & Hx & [[-> ->] | [Hne ->]]).
    + rewrite Hf in Hp. eauto.
    + eauto.
  - intros (i & s & Hw & Hs & Hp). exists i. eexists. split; [done|].
    split; [by apply alter_lookup_pres|]. case_decide; [by rewrite Hf | done].
Qed.

Lemma linked_same a b :
  wsRef b = wsRef a → sockets b = sockets a → linked b ↔ linked a.
Proof. unfold linked. by intros -> ->. Qed.

Lemma flag_ok_same a b :
  wsRef b = wsRef a → sockets b = sockets a → isConnected b = isConnected a →
  flag_ok a → flag_ok b.
Proof. unfold flag_ok. intros Hw Hs ->. by rewrite (linked_same a b). Qed.

Lemma flag_ok_alter (f : WebSocket → WebSocket) ws st :
  (∀ s, pingInterval (f s) = pingInterval s) →
  flag_ok st → flag_ok (with_sockets (alter f ws (sockets st)) st).
Proof. unfold flag_ok. intros Hf. by rewrite (linked_alter f ws st Hf). Qed.

Lemma perform_connection a st :
  wsRef (perform a st) = wsRef st ∧ sockets (perform a st) = sockets st
  ∧ isConnected (perform a st) = isConnected st.
Proof.
  destruct a as [| |keys]; try done. cbn.
  revert st. induction keys as [|k keys IH]; intros st; [done|]. cbn.
  destruct (IH (exec (debouncedInvalidate k) st)) as (-> & -> & ->).
  by rewrite debounced_closed.
Qed.

Lemma flag_ok_step e st st' : Inv st → flag_ok st → step e st = Some st' → flag_ok st'.
Proof.
  intros HI Hf Hstep. pose proof (step_cases _ _ _ HI Hstep) as Hc.
  destruct e; cbn [step_result] in Hc.
  - destruct Hc as [Hr ->]. destruct (socket_readyState_Some _ _ _ Hr) as (x & Hx & Hrx).
    assert (Hw : wsRef st = Some ws) by (eapply (inv_current _ HI); [done | congruence]).
    split; [|done]. intros _. exists ws. eexists. cbn. split; [done|].
    rewrite !list_lookup_alter_eq, Hx. cbn. split; [done | by eexists].
  - destruct Hc as [_ ->]. destruct (JSON_parse data) as [message|]; [|done].
    destruct (perform_connection (route message) st) as (Hw & Hs & Hc).
    by eapply flag_ok_same.
  - destruct Hc as [_ ->]. apply flag_ok_alter; [apply start_closing_pingInterval | done].
  - destruct Hc as (x & _ & _ & ->). split; [done|]. by intros (i & s & [=] & _).
  - destruct Hc as (t & Ht & _ & ->).
    assert (Hre : flag_ok (retime id t st)) by (by eapply flag_ok_same).
    destruct (handler t) as [|ws|] eqn:Hh; cbn [timer_callback].
    + destruct (inv_reconnect _ HI _ _ Ht Hh) as (Hw & _ & _).
      rewrite connect_exec.
      assert (Hcur : current_readyState (retime id t st) = None)
        by (unfold current_readyState; cbn; by rewrite Hw).
      rewrite Hcur, bool_decide_eq_false_2 by done.
      assert (Hoff : isConnected st ≠ true).
      { intros Hon. apply Hf in Hon as (i & s & Hi & _). congruence. }
      split; [by cbn|]. intros (i & s & Hi & Hs & Hp). cbn in Hi, Hs.
      injection Hi as <-. rewrite lookup_app_r, Nat.sub_diag in Hs by done.
      injection Hs as <-. by destruct Hp.
    + rewrite ping_tick_exec. case_bool_decide; [|done]. by apply flag_ok_alter.
    + by eapply flag_ok_same.
  - subst st'. by eapply flag_ok_same.
  - destruct Hc as (_ & _ & ->). by eapply flag_ok_same.
  - destruct Hc as [_ ->]. rewrite sendMessage_exec. destruct (wsRef st) eqn:Hw; [|done].
    destruct (JSON_stringify message); [|done].
    case_bool_decide; [|done]. by apply flag_ok_alter.
  - destruct Hc as [_ ->]. rewrite cleanup_closed. cbn zeta.
    destruct (wsRef st) eqn:Hw.
    + eapply (flag_ok_same (with_sockets (alter start_closing n (sockets st)) st));
        [done | done | done |].
      apply flag_ok_alter; [apply start_closing_pingInterval | done].
    + by eapply flag_ok_same.
Qed.

(** The flag against the handle: while the handle is open the flag is true,
    and while the flag is true the handle is open or on its way to closed. *)
Theorem connected_flag_follows_the_handle tr st :
  run tr mount = Some st →
  (current_readyState st = Some OPEN → isConnected st = true)
  ∧ (isConnected st = true →
     current_readyState st = Some OPEN ∨ current_readyState st = Some CLOSING)
  ∧ (isConnected st = true ∧ current_readyState st = Some CLOSING →
     ∀ message, exec (sendMessage message) st = st).
Proof.
  intros Hrun.
  assert (HI : Inv st) by (eapply run_Inv; [apply Inv_mount | exact Hrun]).
  assert (Hf : flag_ok st).
  { revert tr st Hrun HI. intros tr st Hrun _. revert tr st Hrun. apply reachable_ind.
    - rewrite mount_eq. split; [done|]. intros (i & s & Hi & Hs & Hp).
      cbn in Hi, Hs. injection Hi as <-. injection Hs as <-. by destruct Hp.
    - intros e st st' HI Hf Hs. by eapply flag_ok_step. }
  split; [|split].
  - intros Ho. destruct (current_open_inv st Ho) as (ws & s & Hw & Hs & Hr).
    apply Hf. exists ws, s. split; [done|]. split; [done|]. by eapply (inv_open _ HI).
  - intros Hon. apply Hf in Hon as (ws & s & Hw & Hs & [id Hp]).
    destruct (inv_ping _ HI _ _ _ Hs Hp) as [Hr _].
    unfold current_readyState, socket_readyState. rewrite Hw, Hs. cbn.
    destruct Hr as [-> | ->]; auto.
  - intros [_ Hc] message.
    unfold exec. rewrite sendMessage_not_open; [reflexivity | congruence].
Qed.

(** ** The wire, and long bursts *)

Lemma frames_out_alter_same (f : WebSocket → WebSocket) ws (l : list WebSocket) :
  (∀ s, sent (f s) = sent s) → sent <$> alter f ws l = sent <$> l.
Proof.
  intros Hf. apply list_eq. intros i. rewrite !list_lookup_fmap.
  destruct (decide (ws = i)) as [-> | Hne].
  - rewrite list_lookup_alter_eq. destruct (l !! i); cbn; by rewrite ?Hf.
  - by rewrite list_lookup_alter_ne.
Qed.

Lemma frames_out_push data ws (l : list WebSocket) s :
  l !! ws = Some s →
  sent <$> alter (push_sent data) ws l = <[ws := sent s ++ [data]]> (sent <$> l).
Proof.
  intros Hs. apply list_eq. intros i. rewrite !list_lookup_fmap.
  destruct (decide (ws = i)) as [-> | Hne].
  - rewrite list_lookup_alter_eq, Hs. cbn.
    rewrite list_lookup_insert_eq; [done|]. rewrite length_fmap. by eapply lookup_lt_Some.
  - rewrite list_lookup_alter_ne, list_lookup_insert_ne by done.
    by rewrite list_lookup_fmap.
Qed.

Lemma start_closing_sent s : sent (start_closing s) = sent s.
Proof. unfold start_closing. by destruct (readyState s). Qed.

(** What goes out on the wire: a step either leaves every handle's output
    as it was (a new handle starts with none), or appends one frame to an
    open handle, and that frame is a keepalive ping sent by the handle's
    timer or a message given to [sendMessage] for the current handle. *)
Theorem only_pings_and_sent_messages_go_out e st st' :
  Inv st → step e st = Some st' →
  frames_out st' = frames_out st
  ∨ frames_out st' = frames_out st ++ [[]]
  ∨ ∃ ws s frame,
      sockets st !! ws = Some s ∧ readyState s = OPEN
      ∧ frames_out st' = <[ws := sent s ++ [frame]]> (frames_out st)
      ∧ ((∃ id t, e = TimerFire id ∧ timers st !! id = Some t ∧ handler t = PingTimer ws
                  ∧ JSON_stringify (Data ping_message) = Some frame)
         ∨ (∃ message, e = SendMessage message ∧ wsRef st = Some ws
                       ∧ JSON_stringify message = Some frame)).
Proof.
  intros HI Hstep. pose proof (step_cases _ _ _ HI Hstep) as Hc.
  unfold frames_out. destruct e; cbn [step_result] in Hc.
  - left. destruct Hc as [_ ->]. cbn. by rewrite !frames_out_alter_same.
  - left. destruct Hc as [_ ->]. destruct (JSON_parse data) as [message|]; [|done].
    by destruct (perform_connection (route message) st) as (_ & -> & _).
  - left. destruct Hc as [_ ->]. cbn.
    apply frames_out_alter_same, start_closing_sent.
  - left. destruct Hc as (x & _ & _ & ->). cbn. by apply frames_out_alter_same.
  - destruct Hc as (t & Ht & _ & ->). destruct (handler t) as [|ws|] eqn:Hh;
      cbn [timer_callback].
    + rewrite connect_exec. case_bool_decide; [by left|]. right. left. cbn.
      by rewrite fmap_app.
    + rewrite ping_tick_exec. case_bool_decide as Hr; [|by left]. right. right.
      destruct (socket_readyState_Some ws st OPEN Hr) as (s & Hs & Hrs).
      exists ws, s, ping_frame. split; [done|]. split; [done|].
      split; [cbn; by apply frames_out_push|]. left. exists id, t.
      split; [done|]. split; [done|]. split; [done|]. apply ping_frame_text.
    + by left.
  - left. by subst st'.
  - left. by destruct Hc as (_ & _ & ->).
  - destruct Hc as [_ ->]. rewrite sendMessage_exec.
    destruct (wsRef st) as [ws|] eqn:Hw; [|by left].
    destruct (JSON_stringify message) as [frame|] eqn:Hj; [|by left].
    case_bool_decide as Hr; [|by left]. right. right.
    destruct (socket_readyState_Some ws st OPEN Hr) as (s & Hs & Hrs).
    exists ws, s, frame. split; [done|]. split; [done|].
    split; [cbn; by apply frames_out_push|]. right. by exists message.
  - left. destruct Hc as [_ ->]. rewrite cleanup_closed. cbn zeta.
    destruct (wsRef st); [|done]. cbn. apply frames_out_alter_same, start_closing_sent.
Qed.


(** ** Pending keys and their timer *)

Lemma set_add_not_nil k s : set_add k s ≠ [].
Proof.
  unfold set_add. case_bool_decide as Hk.
  - intros ->. by apply elem_of_nil in Hk.
  - by destruct s.
Qed.

Lemma flush_ok_same a b :
  timers b = timers a → pendingInvalidations b = pendingInvalidations a →
  now b = now a → attached b = attached a → flush_ok a → flush_ok b.
Proof. unfold flush_ok. by intros -> -> -> ->. Qed.

Lemma flush_ok_debounced k st : flush_ok st → flush_ok (exec (debouncedInvalidate k) st).
Proof.
  intros [Hf Ha]. rewrite debounced_closed. split; cbn.
  - intros id t Ht Hh. split; [apply set_add_not_nil|].
    apply lookup_insert_Some in Ht as [[_ <-] | [_ Ht]]; [cbn; lia|].
    apply clear_timer_lookup in Ht as [Ht _]. by apply (Hf id t).
  - intros _ _. eexists _, _. split; [apply lookup_insert_eq | done].
Qed.

Lemma flush_ok_perform a st : flush_ok st → flush_ok (perform a st).
Proof.
  destruct a as [| |keys]; [done | by apply flush_ok_same |]. cbn.
  revert st. induction keys as [|k keys IH]; intros st Hf; [done|].
  cbn. by apply IH, flush_ok_debounced.
Qed.

Lemma flush_ok_step e st st' : Inv st → flush_ok st → step e st = Some st' → flush_ok st'.
Proof.
  intros HI Hf Hstep. pose proof (step_cases _ _ _ HI Hstep) as Hc.
  destruct e; cbn [step_result] in Hc.
  - destruct Hc as [_ ->]. destruct Hf as [Hf Ha]. split; cbn.
    + intros id t Ht Hh. apply lookup_insert_Some in Ht as [[_ <-] | [_ Ht]]; [done|].
      by apply (Hf id t).
    + intros Hat Hp. destruct (Ha Hat Hp) as (id & t & Ht & Hh). exists id, t.
      split; [|done]. rewrite lookup_insert_ne; [done|].
      pose proof (inv_timer_ids _ HI _ _ Ht). lia.
  - destruct Hc as [_ ->]. destruct (JSON_parse data); [by apply flush_ok_perform | done].
  - destruct Hc as [_ ->]. by eapply flush_ok_same.
  - destruct Hc as (x & Hx & _ & ->). destruct Hf as [Hf Ha]. split; cbn.
    + intros id t Ht Hh. apply lookup_insert_Some in Ht as [[_ <-] | [_ Ht]]; [done|].
      destruct (pingInterval x) as [p|]; [apply lookup_delete_Some in Ht as [_ Ht]|];
        by apply (Hf id t).
    + intros Hat Hp. destruct (Ha Hat Hp) as (id & t & Ht & Hh). exists id, t.
      split; [|done]. pose proof (inv_timer_ids _ HI _ _ Ht).
      rewrite lookup_insert_ne by lia.
      destruct (pingInterval x) as [p|] eqn:Hpx; [|done].
      rewrite lookup_delete_ne; [done|]. intros ->.
      destruct (inv_ping _ HI _ _ _ Hx Hpx) as [_ (d & Ht' & _)].
      rewrite Ht in Ht'. injection Ht' as ->. discriminate.
  - destruct Hc as (t & Ht & Hdue & ->). destruct Hf as [Hf Ha].
    destruct (handler t) as [|ws|] eqn:Hh; cbn [timer_callback].
    + destruct (inv_reconnect _ HI _ _ Ht Hh) as (_ & _ & Hiv).
      rewrite connect_exec. unfold retime. rewrite Hiv.
      assert (Hgoal : flush_ok (with_timers (delete id (timers st)) st)).
      { split; cbn.
        - intros j t' [_ Hj]%lookup_delete_Some Hh'. by apply (Hf j t').
        - intros Hat Hp. destruct (Ha Hat Hp) as (j & t' & Hj & Hh'). exists j, t'.
          split; [|done]. rewrite lookup_delete_ne; [done|]. intros ->. congruence. }
      case_bool_decide; [done|]. by eapply flush_ok_same.
    + destruct (inv_ping_owner _ HI _ _ _ Ht Hh) as (s & Hs & Hp).
      destruct (inv_ping _ HI _ _ _ Hs Hp) as [_ (d & Ht' & _)].
      rewrite Ht in Ht'. injection Ht' as ->.
      assert (Hgoal : flush_ok (retime id {| handler := PingTimer ws; due := d;
                                             interval := Some 30000 |} st)).
      { split; cbn.
        - intros j t' Hj Hh'. apply lookup_insert_Some in Hj as [[_ <-] | [_ Hj]]; [done|].
          by apply (Hf j t').
        - intros Hat Hpd. destruct (Ha Hat Hpd) as (j & t' & Hj & Hh'). exists j, t'.
          split; [|done]. rewrite lookup_insert_ne; [done|]. intros ->.
          rewrite Ht in Hj. injection Hj as <-. discriminate. }
      rewrite ping_tick_exec. case_bool_decide; [|done]. by eapply flush_ok_same.
    + destruct (inv_flush _ HI _ _ Ht Hh) as (Href & Hiv). unfold retime. rewrite Hiv.
      split; cbn; [|done].
      intros j t' [Hne Hj]%lookup_delete_Some Hh'.
      destruct (inv_flush _ HI _ _ Hj Hh') as (Href' & _). congruence.
  - subst st'. by eapply flush_ok_same.
  - destruct Hc as (Hdt & Hnt & ->). destruct Hf as [Hf Ha]. split; cbn; [|done].
    intros id t Ht Hh. destruct (Hf id t Ht Hh) as [Hp Hd]. split; [done|].
    pose proof (map_Forall_lookup_1 _ _ _ _ Hnt Ht) as Hdue. cbn in Hdue. lia.
  - destruct Hc as [_ ->]. rewrite sendMessage_exec. destruct (wsRef st); [|done].
    destruct (JSON_stringify message); [|done].
    case_bool_decide; [|done]. by eapply flush_ok_same.
  - destruct Hc as [_ ->]. rewrite cleanup_closed. cbn zeta. destruct Hf as [Hf Ha].
    split; [|by destruct (wsRef st)].
    intros id t Ht Hh.
    assert (Ht' : clear_timer (invalidationTimeoutRef st)
                    (clear_timer (reconnectTimeoutRef st) (timers st)) !! id = Some t)
      by (by destruct (wsRef st)).
    apply clear_timer_lookup in Ht' as [Ht' _]. apply clear_timer_lookup in Ht' as [Ht' _].
    destruct (Hf id t Ht' Hh) as [Hp Hd]. by destruct (wsRef st).
Qed.

(** No request is stranded while the component is mounted: keys are pending
    only with the flush timer armed, and that timer is due within 100 ms. *)
Theorem pending_keys_have_a_flush_due_within_100ms tr st :
  run tr mount = Some st →
  (∀ id t, timers st !! id = Some t → handler t = FlushTimer →
     pendingInvalidations st ≠ [] ∧ now st ≤ due t ≤ now st + 100
     ∧ invalidationTimeoutRef st = Some id)
  ∧ (attached st = true → pendingInvalidations st ≠ [] →
     ∃ id t, timers st !! id = Some t ∧ handler t = FlushTimer).
Proof.
  intros Hrun.
  assert (HI : Inv st) by (eapply run_Inv; [apply Inv_mount | exact Hrun]).
  assert (Hf : flush_ok st).
  { revert tr st Hrun HI. intros tr st Hrun _. revert tr st Hrun. apply reachable_ind.
    - rewrite mount_eq. split; cbn; [|done]. intros id t Ht. by rewrite lookup_empty in Ht.
    - intros e st st' HI Hf Hs. by eapply flush_ok_step. }
  destruct Hf as [Hf Ha]. split; [|exact Ha].
  intros id t Ht Hh. destruct (Hf id t Ht Hh) as [Hp Hd].
  destruct (inv_flush _ HI _ _ Ht Hh) as [Href _]. done.
Qed.

(** ** After teardown *)

(** Teardown does not end the reconnect loop: if the component unmounts
    while it holds a handle that is not yet closed, then once the close
    event of that handle arrives a reconnect is pending, nothing else is,
    and 3000 ms later a new handle is connecting for the detached
    component. *)
Theorem unmount_does_not_stop_reconnecting tr st ws x st1 :
  run tr mount = Some st →
  sockets st !! ws = Some x → readyState x ≠ CLOSED →
  step Unmount st = Some st1 →
  ∃ st2 st3 st4,
    step (SockClose ws) st1 = Some st2
    ∧ advance 3000 st2 = Some st3
    ∧ step (TimerFire (nextTimerId st)) st3 = Some st4
    ∧ attached st4 = false
    ∧ wsRef st4 = Some (length (sockets st))
    ∧ sockets st4 !! length (sockets st)
      = Some {| url := wsUrl; readyState := CONNECTING; sent := []; pingInterval := None |}.
Proof.
  intros Hrun Hx Hrx Hun.
  assert (HI : Inv st) by (eapply run_Inv; [apply Inv_mount | exact Hrun]).
  assert (Hrun1 : run (tr ++ [Unmount]) mount = Some st1) by (apply run_snoc; eauto).
  assert (HI1 : Inv st1) by (eapply run_Inv; [apply Inv_mount | exact Hrun1]).
  destruct (step_cases _ _ _ HI Hun) as [_ Hst1].
  destruct (cleanup_reach st st1 HI Hst1) as (Honly & Hdead & Hw1 & _ & _ & Hat1).
  pose proof (inv_current _ HI _ _ Hx Hrx) as Hw.
  assert (Hsock1 : sockets st1 = alter start_closing ws (sockets st)).
  { rewrite Hst1, cleanup_closed. cbn zeta. by rewrite Hw. }
  assert (Hnext1 : nextTimerId st1 = nextTimerId st).
  { rewrite Hst1, cleanup_closed. cbn zeta. by rewrite Hw. }
  assert (Hnow1 : now st1 = now st).
  { rewrite Hst1, cleanup_closed. cbn zeta. by rewrite Hw. }
  assert (Hx1 : sockets st1 !! ws = Some (start_closing x))
    by (by rewrite Hsock1, list_lookup_alter_eq, Hx).
  assert (Hr1 : readyState (start_closing x) = CLOSING).
  { destruct (Hdead _ _ Hx1) as [Hc | Hc]; [done|].
    unfold start_closing in Hc. destruct (readyState x) eqn:E; cbn in Hc; congruence. }
  assert (Hstep2 : step (SockClose ws) st1
                   = Some (closed_state ws (start_closing x) st1)).
  { cbn. unfold socket_readyState. rewrite Hx1. cbn. rewrite Hr1.
    f_equal. by apply ws_onclose_exec. }
  set (st2 := closed_state ws (start_closing x) st1) in *.
  assert (Hrun2 : run ((tr ++ [Unmount]) ++ [SockClose ws]) mount = Some st2)
    by (apply run_snoc; eauto).
  assert (HI2 : Inv st2) by (eapply run_Inv; [apply Inv_mount | exact Hrun2]).
  assert (Hnew : timers st2 !! nextTimerId st
                 = Some {| handler := ReconnectTimer; due := now st + 3000;
                           interval := None |}).
  { subst st2. cbn. rewrite Hnext1, Hnow1. apply lookup_insert_eq. }
  assert (Hsole : ∀ j t, timers st2 !! j = Some t → j = nextTimerId st).
  { intros j t Hj. destruct (handler t) as [|i|] eqn:Hh.
    - destruct (inv_reconnect _ HI2 _ _ Hj Hh) as (_ & Href & _).
      subst st2. cbn in Href. congruence.
    - exfalso. destruct (inv_ping_owner _ HI2 _ _ _ Hj Hh) as (s & Hs & Hp).
      destruct (inv_ping _ HI2 _ _ _ Hs Hp) as [Hr _].
      assert (Hnc : readyState s ≠ CLOSED) by (destruct Hr; congruence).
      pose proof (inv_current _ HI2 _ _ Hs Hnc) as Hcur. subst st2. discriminate.
    - exfalso. subst st2. cbn in Hj.
      apply lookup_insert_Some in Hj as [[_ <-] | [_ Hj]]; [discriminate|].
      assert (Hj1 : timers st1 !! j = Some t).
      { destruct (pingInterval (start_closing x));
          [by apply lookup_delete_Some in Hj as [_ Hj] | done]. }
      destruct (Honly _ _ Hj1) as [i Hi]. congruence. }
  assert (Hadv : advance 3000 st2 = Some (with_now (now st2 + 3000) st2)).
  { unfold advance. rewrite bool_decide_eq_true_2; [done|]. split; [lia|].
    intros j t Hj. cbn. pose proof (Hsole _ _ Hj) as ->. rewrite Hnew in Hj.
    injection Hj as <-. cbn. subst st2. cbn. lia. }
  set (st3 := with_now (now st2 + 3000) st2) in *.
  assert (Hrun3 : run (((tr ++ [Unmount]) ++ [SockClose ws]) ++ [Advance 3000]) mount
                  = Some st3) by (apply run_snoc; eauto).
  assert (Hnew3 : timers st3 !! nextTimerId st
                  = Some {| handler := ReconnectTimer; due := now st + 3000;
                            interval := None |}) by exact Hnew.
  assert (Hfire : ∃ st4, step (TimerFire (nextTimerId st)) st3 = Some st4).
  { unfold step. rewrite Hnew3. cbn [due].
    rewrite bool_decide_eq_true_2; [eauto|]. subst st3 st2. cbn. lia. }
  destruct Hfire as [st4 Hfire].
  destruct (reconnect_timer_fires st3 _ _ st4 (run_Inv _ _ _ Inv_mount Hrun3) Hnew3 eq_refl
              Hfire) as (_ & _ & Hs4 & Hw4 & _ & _).
  assert (Hlen : length (sockets st3) = length (sockets st)).
  { subst st3 st2. cbn. by rewrite !length_alter, Hsock1, length_alter. }
  exists st2, st3, st4. split; [exact Hstep2|]. split; [exact Hadv|]. split; [exact Hfire|].
  split; [|split].
  - destruct (step_cases _ _ _ (run_Inv _ _ _ Inv_mount Hrun3) Hfire) as (t & Ht & _ & ->).
    rewrite Hnew3 in Ht. injection Ht as <-.
    cbn [handler timer_callback]. rewrite connect_exec.
    case_bool_decide; cbn; by rewrite Hat1.
  - by rewrite Hw4, Hlen.
  - rewrite Hs4, <- Hlen. by rewrite lookup_app_r, Nat.sub_diag.
Qed.

(** ** The keepalive, from open to close *)

Lemma keepalive_alter (f : WebSocket → WebSocket) i ws (l : list WebSocket) s id :
  (∀ x, pingInterval (f x) = pingInterval x) →
  (∀ x, readyState x = CLOSING → readyState (f x) = CLOSING) →
  l !! ws = Some s → pingInterval s = Some id →
  ∃ s', alter f i l !! ws = Some s' ∧ pingInterval s' = Some id
        ∧ (readyState s = CLOSING → readyState s' = CLOSING).
Proof.
  intros Hp Hr Hs Hid. destruct (decide (i = ws)) as [-> | Hne].
  - exists (f s). rewrite list_lookup_alter_eq, Hs. cbn. rewrite Hp. auto.
  - exists s. by rewrite list_lookup_alter_ne.
Qed.

Lemma step_keepalive e st st' ws s id :
  Inv st → step e st = Some st' → e ≠ SockClose ws →
  sockets st !! ws = Some s → pingInterval s = Some id →
  ∃ s', sockets st' !! ws = Some s' ∧ pingInterval s' = Some id
        ∧ (readyState s = CLOSING ∨ e = SockError ws
           ∨ (e = Unmount ∧ wsRef st = Some ws) →
           readyState s' = CLOSING).
Proof.
  intros HI Hstep Hne Hs Hid. pose proof (step_cases _ _ _ HI Hstep) as Hc.
  destruct (inv_ping _ HI _ _ _ Hs Hid) as [Hrs _].
  destruct e; cbn [step_result] in Hc.
  - destruct Hc as [Hc ->]. cbn.
    assert (ws0 ≠ ws).
    { intros ->. unfold socket_readyState in Hc. rewrite Hs in Hc. cbn in Hc.
      destruct Hrs; congruence. }
    exists s. rewrite !list_lookup_alter_ne by done. split; [done|]. split; [done|].
    intros [? | [? | [? _]]]; [done | congruence | congruence].
  - destruct Hc as [_ ->].
    assert (Hsock : sockets (match JSON_parse data with
                             | Some message => perform (route message) st
                             | None => st end) = sockets st).
    { destruct (JSON_parse data) as [message|]; [|done].
      by destruct (perform_connection (route message) st) as (_ & -> & _). }
    rewrite Hsock. exists s. split; [done|]. split; [done|].
    intros [? | [? | [? _]]]; [done | congruence | congruence].
  - destruct Hc as [_ ->]. cbn. destruct (decide (ws0 = ws)) as [-> | Hn].
    + exists (start_closing s). rewrite list_lookup_alter_eq, Hs. cbn.
      split; [done|]. split; [by rewrite start_closing_pingInterval|].
      intros _. unfold start_closing. destruct Hrs as [-> | Hr]; [done|]. by rewrite Hr.
    + exists s. rewrite list_lookup_alter_ne by done. split; [done|]. split; [done|].
      intros [? | [? | [? _]]]; [done | congruence | congruence].
  - destruct Hc as (x & _ & _ & ->). cbn.
    assert (ws0 ≠ ws) by congruence.
    exists s. rewrite list_lookup_alter_ne by done. split; [done|]. split; [done|].
    intros [? | [? | [? _]]]; [done | congruence | congruence].
  - destruct Hc as (t & _ & _ & ->).
    assert (Hgoal : ∃ s', sockets (exec (timer_callback (handler t)) (retime id0 t st)) !! ws
                          = Some s' ∧ pingInterval s' = Some id
                          ∧ (readyState s = CLOSING → readyState s' = CLOSING)).
    { destruct (handler t) as [|i|]; cbn [timer_callback].
      - rewrite connect_exec. case_bool_decide; [by exists s|]. cbn.
        exists s. split; [|done]. apply lookup_app_l_Some. exact Hs.
      - rewrite ping_tick_exec. case_bool_decide; [|by exists s]. cbn.
        by apply keepalive_alter.
      - by exists s. }
    destruct Hgoal as (s' & ? & ? & Hr). exists s'. split; [done|]. split; [done|].
    intros [? | [? | [? _]]]; [auto | congruence | congruence].
  - subst st'. cbn. exists s. split; [done|]. split; [done|].
    intros [? | [? | [? _]]]; [done | congruence | congruence].
  - destruct Hc as (_ & _ & ->). cbn. exists s. split; [done|]. split; [done|].
    intros [? | [? | [? _]]]; [done | congruence | congruence].
  - destruct Hc as [_ ->]. rewrite sendMessage_exec.
    assert (Hgoal : ∃ s', sockets (match wsRef st, JSON_stringify message with
                                   | Some ws, Some frame =>
                                       if bool_decide (socket_readyState ws st = Some OPEN)
                                       then with_sockets
                                              (alter (push_sent frame) ws (sockets st)) st
                                       else st
                                   | _, _ => st end) !! ws
                          = Some s' ∧ pingInterval s' = Some id
                          ∧ (readyState s = CLOSING → readyState s' = CLOSING)).
    { destruct (wsRef st); [|by exists s]. destruct (JSON_stringify message); [|by exists s].
      case_bool_decide; [|by exists s]. cbn. by apply keepalive_alter. }
    destruct Hgoal as (s' & ? & ? & Hr). exists s'. split; [done|]. split; [done|].
    intros [? | [? | [? _]]]; [auto | congruence | congruence].
  - destruct Hc as [_ ->]. rewrite cleanup_closed. cbn zeta.
    destruct (wsRef st) as [w|] eqn:Hw; cbn.
    + destruct (decide (w = ws)) as [-> | Hn].
      * exists (start_closing s). rewrite list_lookup_alter_eq, Hs. cbn.
        split; [done|]. split; [by rewrite start_closing_pingInterval|].
        intros _. unfold start_closing. destruct Hrs as [-> | Hr]; [done|]. by rewrite Hr.
      * exists s. rewrite list_lookup_alter_ne by done. split; [done|]. split; [done|].
        intros [? | [? | [_ ?]]]; [done | congruence | congruence].
    + exists s. split; [done|]. split; [done|].
      intros [? | [? | [_ ?]]]; [done | congruence | congruence].
Qed.

Lemma run_keepalive tr : ∀ st st' ws s id,
  Inv st → run tr st = Some st' → SockClose ws ∉ tr →
  sockets st !! ws = Some s → pingInterval s = Some id →
  ∃ s' d, sockets st' !! ws = Some s' ∧ pingInterval s' = Some id
          ∧ (readyState s' = OPEN ∨ readyState s' = CLOSING)
          ∧ timers st' !! id
            = Some {| handler := PingTimer ws; due := d; interval := Some 30000 |}
          ∧ now st' ≤ d ≤ now st' + 30000
          ∧ (readyState s = CLOSING ∨ SockError ws ∈ tr
             ∨ (Unmount ∈ tr ∧ readyState s = OPEN) →
             readyState s' = CLOSING).
Proof.
  induction tr as [|e tr IH]; intros st st' ws s id HI Hrun Hnc Hs Hid; cbn in Hrun.
  - injection Hrun as <-. destruct (inv_ping _ HI _ _ _ Hs Hid) as [Hr (d & Ht & Hd)].
    exists s, d. repeat (split; [done|]).
    intros [? | [?%elem_of_nil | [?%elem_of_nil _]]]; done.
  - destruct (step e st) as [st1|] eqn:Hstep; [|discriminate].
    apply not_elem_of_cons in Hnc as [Hne Hnc].
    destruct (step_keepalive e st st1 ws s id HI Hstep (not_eq_sym Hne) Hs Hid)
      as (s1 & Hs1 & Hid1 & Hc1).
    destruct (IH st1 st' ws s1 id (step_Inv _ _ _ HI Hstep) Hrun Hnc Hs1 Hid1)
      as (s' & d & Hs' & Hid' & Hr' & Ht' & Hd' & Hc').
    exists s', d. repeat (split; [done|]).
    intros Hcase. apply Hc'.
    destruct Hcase as [Hcl | [[He | Hin]%elem_of_cons | [[He | Hin]%elem_of_cons Ho]]].
    + left. apply Hc1. by left.
    + left. apply Hc1. right. left. by symmetry.
    + right. by left.
    + left. apply Hc1. right. right. split; [by symmetry|].
      eapply (inv_current _ HI); [done | congruence].
    + destruct (inv_ping _ (step_Inv _ _ _ HI Hstep) _ _ _ Hs1 Hid1) as [[Ho1 | Hc1'] _].
      * right. right. by split.
      * by left.
Qed.

(** C8, as amended.  The keepalive timer of a handle runs from its open
    event to its close event: it is armed whenever the handle is open, due
    within 30000 ms; it is armed only while the handle is open or closing;
    each tick re-arms it 30000 ms later and sends the serialised
    [{type: "ping"}] if the handle is open and nothing otherwise; after
    the close event no keepalive timer of the handle is left; and from a
    state where the handle is open, as long as its close event has not
    arrived the timer stays armed under the same id, also once an error
    event or the unmount has left the handle closing. *)
Theorem keepalive_runs_from_open_to_close tr st ws s :
  run tr mount = Some st → sockets st !! ws = Some s →
  (readyState s = OPEN →
     ∃ id d, pingInterval s = Some id
             ∧ timers st !! id
               = Some {| handler := PingTimer ws; due := d; interval := Some 30000 |}
             ∧ now st ≤ d ≤ now st + 30000)
  ∧ (∀ id t, timers st !! id = Some t → handler t = PingTimer ws →
       (readyState s = OPEN ∨ readyState s = CLOSING)
       ∧ pingInterval s = Some id
       ∧ interval t = Some 30000
       ∧ ∀ st', step (TimerFire id) st = Some st' →
           timers st' !! id
           = Some {| handler := PingTimer ws; due := now st + 30000;
                     interval := Some 30000 |}
           ∧ ∃ frame, JSON_stringify (Data ping_message) = Some frame
               ∧ sockets st'
                 = if bool_decide (readyState s = OPEN)
                   then alter (push_sent frame) ws (sockets st)
                   else sockets st)
  ∧ (∀ st', step (SockClose ws) st = Some st' →
       ∀ id t, timers st' !! id = Some t → handler t ≠ PingTimer ws)
  ∧ (readyState s = OPEN →
     ∀ tr2 st2, run tr2 st = Some st2 → SockClose ws ∉ tr2 →
       ∃ s2 id d,
         sockets st2 !! ws = Some s2
         ∧ pingInterval s = Some id ∧ pingInterval s2 = Some id
         ∧ (readyState s2 = OPEN ∨ readyState s2 = CLOSING)
         ∧ timers st2 !! id
           = Some {| handler := PingTimer ws; due := d; interval := Some 30000 |}
         ∧ now st2 ≤ d ≤ now st2 + 30000
         ∧ (SockError ws ∈ tr2 ∨ Unmount ∈ tr2 → readyState s2 = CLOSING)).
Proof.
  intros Hrun Hs.
  assert (HI : Inv st) by (eapply run_Inv; [apply Inv_mount | exact Hrun]).
  split; [|split; [|split]].
  - intros Ho. destruct (inv_open _ HI _ _ Hs Ho) as [id Hp].
    destruct (inv_ping _ HI _ _ _ Hs Hp) as [_ (d & Ht & Hd)]. eauto.
  - intros id t Ht Hh.
    destruct (inv_ping_owner _ HI _ _ _ Ht Hh) as (s' & Hs' & Hp).
    rewrite Hs in Hs'. injection Hs' as <-.
    destruct (inv_ping _ HI _ _ _ Hs Hp) as [Hr (d & Ht' & Hd)].
    rewrite Ht in Ht'. injection Ht' as ->.
    split; [done|]. split; [done|]. split; [done|].
    intros st' Hfire. cbn in Hfire. rewrite Ht in Hfire. cbn in Hfire.
    case_bool_decide as Hdue; [|discriminate]. injection Hfire as <-.
    rewrite run_timer_exec. cbn [handler timer_callback]. rewrite ping_tick_exec.
    assert (Hrs : socket_readyState ws (retime id
              {| handler := PingTimer ws; due := d; interval := Some 30000 |} st)
              = Some (readyState s)).
    { unfold socket_readyState. cbn. by rewrite Hs. }
    rewrite Hrs. subst d.
    destruct (decide (readyState s = OPEN)) as [Ho | Hno].
    + rewrite !bool_decide_eq_true_2 by congruence. cbn.
      split; [apply lookup_insert_eq|]. exists ping_frame. split; [apply ping_frame_text | done].
    + rewrite !bool_decide_eq_false_2 by congruence. cbn.
      split; [apply lookup_insert_eq|]. exists ping_frame. split; [apply ping_frame_text | done].
  - intros st' Hstep id t Ht Hh.
    assert (HI' : Inv st') by (by eapply step_Inv).
    destruct (step_SockClose_inv _ _ _ Hstep) as (x & Hx & Hrx & Hst').
    rewrite (ws_onclose_exec _ _ _ HI Hx) in Hst'.
    destruct (inv_ping_owner _ HI' _ _ _ Ht Hh) as (s' & Hs' & Hp).
    subst st'. cbn in Hs'. rewrite list_lookup_alter_eq, Hx in Hs'. cbn in Hs'.
    injection Hs' as <-. discriminate.
  - intros Ho tr2 st2 Hrun2 Hnc. destruct (inv_open _ HI _ _ Hs Ho) as [id Hp].
    destruct (run_keepalive tr2 st st2 ws s id HI Hrun2 Hnc Hs Hp)
      as (s2 & d & Hs2 & Hp2 & Hr2 & Ht2 & Hd2 & Hc2).
    exists s2, id, d. repeat (split; [done|]).
    intros [He | Hu]; apply Hc2; [right; by left | right; right; by split].
Qed.

End properties.

(** * The statements at concrete inputs *)

#[local] Existing Instance Fixture.page.

(** C1 as stated fails: right after mount the handle is connecting, and a
    call of [connect] builds a second handle beside it. *)
Lemma connect_while_connecting_builds_second_handle :
  current_readyState mount = Some CONNECTING
  ∧ readyState <$> sockets (exec connect mount) = [CONNECTING; CONNECTING]
  ∧ exec connect mount ≠ mount.
Proof.
  split; [reflexivity|]. split; [reflexivity|].
  intros Heq. apply (f_equal (λ st, length (sockets st))) in Heq. discriminate.
Qed.

(** C2.  The hook at a run that ends after teardown: the handle opens, the
    component unmounts, the close event of the handle arrives, 3000 ms pass
    and the reconnect timer fires.  A second handle is connecting although
    the component is detached. *)
Theorem reconnect_after_unmount :
  ∃ st, run [SockOpen 0%nat; Unmount; SockClose 0%nat; Advance 3000; TimerFire 2%nat] mount
        = Some st
        ∧ attached st = false
        ∧ readyState <$> sockets st = [CLOSED; CONNECTING]
        ∧ wsRef st = Some 1%nat.
Proof. eexists. split; [vm_compute; reflexivity|]. repeat split. Qed.

(** C5 as stated fails: after an open and then an error event the last
    lifecycle event is the error, yet the flag is still true. *)
Lemma connected_after_error :
  last_transport [SockOpen 0%nat; SockError 0%nat] = Some (SockError 0%nat)
  ∧ isConnected <$> run [SockOpen 0%nat; SockError 0%nat] mount = Some true.
Proof. split; vm_compute; reflexivity. Qed.

(** C7 as stated fails: on an open handle a message that holds a BigInt is
    not transmitted; [JSON.stringify] raises and the call passes the
    [TypeError] on to its caller. *)
Lemma send_on_open_handle_raises_on_bigint :
  run [SockOpen 0%nat] mount = Some Fixture.opened
  ∧ current_readyState Fixture.opened = Some OPEN
  ∧ sendMessage HoldsBigInt Fixture.opened = (Throw TypeError, Fixture.opened)
  ∧ frames_out (exec (sendMessage HoldsBigInt) Fixture.opened) = frames_out Fixture.opened.
Proof. repeat split; vm_compute; reflexivity. Qed.

(** C8 as stated fails: after unmount the handle is closing, not open, and
    its keepalive timer is still armed. *)
Lemma keepalive_armed_while_closing :
  ∃ st, run [SockOpen 0%nat; Unmount] mount = Some st
        ∧ current_readyState st = Some CLOSING
        ∧ timers st !! 1%nat
          = Some {| handler := PingTimer 0; due := 30000; interval := Some 30000 |}.
Proof. eexists. split; [vm_compute; reflexivity|]. split; vm_compute; reflexivity. Qed.

(** ** The hypotheses hold somewhere *)

Lemma connect_noop_witness :
  ∃ st, run [SockOpen 0%nat] mount = Some st
        ∧ current_readyState st = Some OPEN
        ∧ connect st = (Normal tt, st)
        ∧ ∀ i j si sj, sockets st !! i = Some si → sockets st !! j = Some sj →
                       live si → live sj → i = j.
Proof.
  eexists. split; [vm_compute; reflexivity|]. split; [vm_compute; reflexivity|].
  split.
  - apply (proj1 connect_is_noop_when_open_and_handles_never_overlap).
    vm_compute; reflexivity.
  - intros i j si sj.
    apply (proj2 connect_is_noop_when_open_and_handles_never_overlap [SockOpen 0%nat]).
    vm_compute; reflexivity.
Defined.

Lemma requests_witness :
  idle mount
  ∧ ∃ st4 keys,
      invalidated st4 = keys ∧ NoDup keys
      ∧ (∀ k, k ∈ keys ↔ k ∈ ["archives"; "archiveStats"; "archives"]).
Proof.
  assert (Hidle : idle mount).
  { split; [vm_compute; lia|]. split; [reflexivity|]. split; [reflexivity|].
    intros id t Ht. vm_compute in Ht. discriminate. }
  split; [exact Hidle|].
  destruct (requests_in_one_window_are_delivered_once mount "archives"
              [(30, "archiveStats"); (40, "archives")] Hidle)
    as (st1 & st2 & st3 & st4 & keys & _ & _ & _ & _ & _ & _ & _ & Hk & Hnd & Hel & _).
  - intros dt Hdt. cbn in Hdt.
    repeat (apply elem_of_cons in Hdt as [-> | Hdt]; [lia|]). by apply elem_of_nil in Hdt.
  - vm_compute. reflexivity.
  - intros id t Ht. vm_compute in Ht. discriminate.
  - exists st4, keys. split; [exact Hk|]. split; [exact Hnd|]. exact Hel.
Defined.

Lemma connected_witness :
  ∃ st, run [SockOpen 0%nat; SockClose 0%nat] mount = Some st
        ∧ (isConnected st = true
           ↔ ∃ ws, last_lifecycle [SockOpen 0%nat; SockClose 0%nat] = Some (SockOpen ws)).
Proof.
  eexists. split; [vm_compute; reflexivity|].
  apply connected_iff_last_lifecycle_is_open. vm_compute; reflexivity.
Defined.


Lemma sendMessage_witness :
  let frame := Fixture.stringify Fixture.pong in
  (current_readyState Fixture.opened = Some OPEN
   ∧ JSON_stringify (Data Fixture.pong) = Some frame
   ∧ ∃ ws s, wsRef Fixture.opened = Some ws ∧ sockets Fixture.opened !! ws = Some s
             ∧ sendMessage (Data Fixture.pong) Fixture.opened
               = (Normal tt,
                  with_sockets (<[ws := push_sent frame s]> (sockets Fixture.opened))
                    Fixture.opened))
  ∧ (current_readyState mount ≠ Some OPEN
     ∧ sendMessage (Data Fixture.pong) mount = (Normal tt, mount)).
Proof.
  intros frame.
  assert (Ho : current_readyState Fixture.opened = Some OPEN) by (vm_compute; reflexivity).
  assert (Hj : JSON_stringify (Data Fixture.pong) = Some frame) by reflexivity.
  assert (Hn : current_readyState mount ≠ Some OPEN) by (vm_compute; discriminate).
  split.
  - split; [exact Ho|]. split; [exact Hj|].
    exact (proj1 (proj2 (sendMessage_transmits_iff_open (Data Fixture.pong) Fixture.opened))
             frame Ho Hj).
  - split; [exact Hn|].
    exact (proj1 (proj2 (proj2 (proj2 (proj2
             (sendMessage_transmits_iff_open (Data Fixture.pong) mount)))) Hn)).
Defined.

Lemma keepalive_witness :
  let st := exec (update_socket 0 (set_readyState OPEN) ;; ws_onopen 0) mount in
  ∃ s, run [SockOpen 0%nat] mount = Some st
       ∧ sockets st !! 0%nat = Some s
       ∧ readyState s = OPEN
       ∧ (∃ id d, pingInterval s = Some id
                  ∧ timers st !! id
                    = Some {| handler := PingTimer 0; due := d; interval := Some 30000 |}
                  ∧ now st ≤ d ≤ now st + 30000)
       ∧ ∃ st2 s2 id d,
           run [SockError 0%nat] st = Some st2
           ∧ (SockClose 0%nat ∉ [SockError 0%nat])
           ∧ sockets st2 !! 0%nat = Some s2
           ∧ readyState s2 = CLOSING
           ∧ timers st2 !! id
             = Some {| handler := PingTimer 0; due := d; interval := Some 30000 |}.
Proof.
  intros st.
  assert (H1 : run [SockOpen 0%nat] mount = Some st) by (vm_compute; reflexivity).
  destruct (sockets st !! 0%nat) as [s|] eqn:Hs; [|vm_compute in Hs; discriminate].
  assert (Hr : readyState s = OPEN) by (vm_compute in Hs; by injection Hs as <-).
  assert (Hnc : SockClose 0%nat ∉ [SockError 0%nat])
    by (intros Hin; apply list_elem_of_singleton in Hin; discriminate).
  exists s. split; [exact H1|]. split; [reflexivity|]. split; [exact Hr|].
  split; [exact (proj1 (keepalive_runs_from_open_to_close [SockOpen 0%nat] st 0%nat s H1 Hs)
                   Hr)|].
  destruct (run [SockError 0%nat] st) as [st2|] eqn:H2; [|vm_compute in H2; discriminate].
  destruct (proj2 (proj2 (proj2
              (keepalive_runs_from_open_to_close [SockOpen 0%nat] st 0%nat s H1 Hs)))
              Hr [SockError 0%nat] st2 H2 Hnc)
    as (s2 & id & d & Hs2 & _ & _ & _ & Ht2 & _ & Hc2).
  exists st2, s2, id, d. split; [reflexivity|]. split; [exact Hnc|]. split; [exact Hs2|].
  split; [|exact Ht2]. apply Hc2. left. constructor.
Defined.

Lemma discarded_witness :
  JSON_parse "not json" = None
  ∧ ws_onmessage "not json" mount = (Normal tt, mount)
  ∧ JSON_parse (Fixture.stringify Fixture.firmware_update) = Some Fixture.firmware_update
  ∧ ws_onmessage (Fixture.stringify Fixture.firmware_update) mount = (Normal tt, mount).
Proof.
  assert (H1 : JSON_parse "not json" = None) by (vm_compute; reflexivity).
  assert (H2 : JSON_parse (Fixture.stringify Fixture.firmware_update)
               = Some Fixture.firmware_update) by (vm_compute; reflexivity).
  split; [exact H1|]. split.
  - apply unrecognized_frames_are_discarded. left. exact H1.
  - split; [exact H2|]. apply unrecognized_frames_are_discarded. right.
    exists Fixture.firmware_update. split; [exact H2|].
    intros t Ht. vm_compute in Ht. injection Ht as <-.
    unfold recognized_types. intros Hin.
    repeat (apply elem_of_cons in Hin as [Hin | Hin]; [discriminate|]).
    by apply elem_of_nil in Hin.
Defined.

Lemma status_without_id_witness :
  message_type Fixture.status_without_id = Some "printer_status"
  ∧ own_props Fixture.status_without_id !! "printer_id" = None
  ∧ handleMessage Fixture.status_without_id mount = (Normal tt, mount).
Proof.
  assert (H1 : message_type Fixture.status_without_id = Some "printer_status")
    by (vm_compute; reflexivity).
  assert (H2 : own_props Fixture.status_without_id !! "printer_id" = None)
    by (vm_compute; reflexivity).
  split; [exact H1|]. split; [exact H2|].
  exact (proj1 (printer_status_without_id_writes_nothing _ mount H1 H2)).
Defined.

(** ** The further statements at concrete inputs *)

Lemma run_opened : run [SockOpen 0%nat] mount = Some Fixture.opened.
Proof. vm_compute. reflexivity. Qed.

Lemma Inv_opened : Inv Fixture.opened.
Proof. eapply run_Inv; [apply Inv_mount | apply run_opened]. Qed.

Lemma collection_frames_witness :
  message_type Fixture.archive_created = Some "archive_created"
  ∧ pendingInvalidations (exec (handleMessage Fixture.archive_created) mount)
    = set_add "archiveStats" (set_add "archives" (pendingInvalidations mount)).
Proof.
  assert (Hty : message_type Fixture.archive_created = Some "archive_created")
    by (vm_compute; reflexivity).
  split; [exact Hty|].
  exact (proj1 (collection_frames_only_request_invalidation
                  Fixture.archive_created "archive_created" mount Hty)
           (or_intror eq_refl)).
Defined.

Lemma cache_written_witness :
  let e := SockMessage 0 (Fixture.stringify Fixture.status_of_7) in
  ∃ st', Inv Fixture.opened ∧ step e Fixture.opened = Some st'
         ∧ (queryData st' = queryData Fixture.opened
            ∨ ∃ ws data message id,
                e = SockMessage ws data
                ∧ JSON_parse data = Some message
                ∧ message_type message = Some "printer_status"
                ∧ own_props message !! "printer_id" = Some id
                ∧ queryData st'
                  = <[hashKey [JStr "printerStatus"; id] :=
                        merge_printer_status (own_props message !! "data")
                          (queryData Fixture.opened !! hashKey [JStr "printerStatus"; id])]>
                      (queryData Fixture.opened)).
Proof.
  intros e.
  destruct (step e Fixture.opened) as [st'|] eqn:Hs; [|vm_compute in Hs; discriminate].
  exists st'. split; [exact Inv_opened|]. split; [reflexivity|].
  exact (cache_written_only_by_status_frames e Fixture.opened st' Inv_opened Hs).
Defined.

Lemma cache_never_forgets_witness :
  let tr := [SockMessage 0 (Fixture.stringify Fixture.status_of_7);
             SockMessage 0 (Fixture.stringify Fixture.archive_created)] in
  ∃ st', Inv Fixture.opened ∧ run tr Fixture.opened = Some st'
         ∧ remembers (queryData Fixture.opened) (queryData st').
Proof.
  intros tr.
  destruct (run tr Fixture.opened) as [st'|] eqn:Hr; [|vm_compute in Hr; discriminate].
  exists st'. split; [exact Inv_opened|]. split; [reflexivity|].
  exact (cache_never_forgets tr Fixture.opened st' Inv_opened Hr).
Defined.

Lemma archive_collections_witness :
  let tr := [SockOpen 0%nat; SockMessage 0 (Fixture.stringify Fixture.archive_created);
             Advance 100; TimerFire 3%nat; AnimationFrame] in
  ∃ st, run tr mount = Some st
        ∧ invalidated st = ["archives"; "archiveStats"]
        ∧ ∀ k, k ∈ invalidated st → k = "archives" ∨ k = "archiveStats".
Proof.
  intros tr.
  destruct (run tr mount) as [st|] eqn:Hr; [|vm_compute in Hr; discriminate].
  exists st. split; [reflexivity|].
  split; [vm_compute in Hr; by injection Hr as <-|].
  exact (proj1 (only_the_archive_collections_are_invalidated tr st Hr)).
Defined.

Lemma unmount_cancels_witness :
  ∃ st', run [SockOpen 0%nat] mount = Some Fixture.opened
         ∧ step Unmount Fixture.opened = Some st'
         ∧ ∀ id t, timers st' !! id = Some t → ∃ ws, handler t = PingTimer ws.
Proof.
  destruct (step Unmount Fixture.opened) as [st'|] eqn:Hs; [|vm_compute in Hs; discriminate].
  exists st'. split; [exact run_opened|]. split; [reflexivity|].
  exact (proj1 (unmount_cancels_reconnect_and_flush _ _ st' run_opened Hs)).
Defined.

Lemma page_endpoint_witness :
  run [SockOpen 0%nat] mount = Some Fixture.opened
  ∧ Forall (λ s, url s = "wss://farm.local/api/v1/ws") (sockets Fixture.opened).
Proof.
  split; [exact run_opened|].
  exact (proj1 (every_handle_uses_the_page_endpoint _ _ run_opened)).
Defined.

Lemma reconnect_builds_witness :
  let tr := [SockOpen 0%nat; SockClose 0%nat; Advance 3000] in
  ∃ st t st', run tr mount = Some st
              ∧ timers st !! 2%nat = Some t ∧ handler t = ReconnectTimer
              ∧ step (TimerFire 2) st = Some st'
              ∧ wsRef st' = Some (length (sockets st)).
Proof.
  intros tr.
  destruct (run tr mount) as [st|] eqn:Hr; [|vm_compute in Hr; discriminate].
  destruct (timers st !! 2%nat) as [t|] eqn:Ht;
    [|vm_compute in Hr; injection Hr as <-; vm_compute in Ht; discriminate].
  assert (Hh : handler t = ReconnectTimer).
  { vm_compute in Hr. injection Hr as <-. vm_compute in Ht. by injection Ht as <-. }
  destruct (step (TimerFire 2) st) as [st'|] eqn:Hs.
  - exists st, t, st'. split; [reflexivity|]. split; [exact Ht|]. split; [exact Hh|].
    split; [exact Hs|].
    exact (proj1 (proj2 (proj2 (proj2
             (reconnect_builds_one_connecting_handle tr st 2%nat t st' Hr Ht Hh Hs))))).
  - vm_compute in Hr. injection Hr as <-. vm_compute in Hs. discriminate.
Defined.

Lemma connected_flag_witness :
  let tr := [SockOpen 0%nat; SockError 0%nat] in
  ∃ st, run tr mount = Some st
        ∧ isConnected st = true ∧ current_readyState st = Some CLOSING
        ∧ ∀ message, exec (sendMessage message) st = st.
Proof.
  intros tr.
  destruct (run tr mount) as [st|] eqn:Hr; [|vm_compute in Hr; discriminate].
  assert (Hf : isConnected st = true ∧ current_readyState st = Some CLOSING).
  { vm_compute in Hr. injection Hr as <-. split; reflexivity. }
  exists st. split; [reflexivity|]. split; [apply Hf|]. split; [apply Hf|].
  exact (proj2 (proj2 (connected_flag_follows_the_handle tr st Hr)) Hf).
Defined.

Lemma wire_witness :
  ∃ st', Inv Fixture.opened
         ∧ step (SendMessage (Data Fixture.pong)) Fixture.opened = Some st'
         ∧ (frames_out st' = frames_out Fixture.opened
            ∨ frames_out st' = frames_out Fixture.opened ++ [[]]
            ∨ ∃ ws s frame,
                sockets Fixture.opened !! ws = Some s ∧ readyState s = OPEN
                ∧ frames_out st' = <[ws := sent s ++ [frame]]> (frames_out Fixture.opened)
                ∧ ((∃ id t, SendMessage (Data Fixture.pong) = TimerFire id
                            ∧ timers Fixture.opened !! id = Some t
                            ∧ handler t = PingTimer ws
                            ∧ JSON_stringify (Data ping_message) = Some frame)
                   ∨ (∃ message, SendMessage (Data Fixture.pong) = SendMessage message
                                 ∧ wsRef Fixture.opened = Some ws
                                 ∧ JSON_stringify message = Some frame))).
Proof.
  destruct (step (SendMessage (Data Fixture.pong)) Fixture.opened) as [st'|] eqn:Hs;
    [|vm_compute in Hs; discriminate].
  exists st'. split; [exact Inv_opened|]. split; [reflexivity|].
  exact (only_pings_and_sent_messages_go_out _ _ st' Inv_opened Hs).
Defined.


Lemma pending_keys_witness :
  let tr := [SockOpen 0%nat; SockMessage 0 (Fixture.stringify Fixture.archive_updated)] in
  ∃ st, run tr mount = Some st
        ∧ attached st = true ∧ pendingInvalidations st ≠ []
        ∧ ∃ id t, timers st !! id = Some t ∧ handler t = FlushTimer.
Proof.
  intros tr.
  destruct (run tr mount) as [st|] eqn:Hr; [|vm_compute in Hr; discriminate].
  assert (Hf : attached st = true ∧ pendingInvalidations st ≠ []).
  { vm_compute in Hr. injection Hr as <-. split; [reflexivity | discriminate]. }
  exists st. split; [reflexivity|]. split; [apply Hf|]. split; [apply Hf|].
  exact (proj2 (pending_keys_have_a_flush_due_within_100ms tr st Hr) (proj1 Hf) (proj2 Hf)).
Defined.

Lemma unmount_reconnect_witness :
  ∃ x st1, run [SockOpen 0%nat] mount = Some Fixture.opened
           ∧ sockets Fixture.opened !! 0%nat = Some x ∧ readyState x ≠ CLOSED
           ∧ step Unmount Fixture.opened = Some st1
           ∧ ∃ st2 st3 st4,
               step (SockClose 0) st1 = Some st2
               ∧ advance 3000 st2 = Some st3
               ∧ step (TimerFire (nextTimerId Fixture.opened)) st3 = Some st4
               ∧ attached st4 = false
               ∧ wsRef st4 = Some (length (sockets Fixture.opened)).
Proof.
  destruct (sockets Fixture.opened !! 0%nat) as [x|] eqn:Hx; [|vm_compute in Hx; discriminate].
  assert (Hr : readyState x ≠ CLOSED) by (vm_compute in Hx; by injection Hx as <-).
  destruct (step Unmount Fixture.opened) as [st1|] eqn:Hs; [|vm_compute in Hs; discriminate].
  exists x, st1. split; [exact run_opened|]. split; [reflexivity|]. split; [exact Hr|].
  split; [reflexivity|].
  destruct (unmount_does_not_stop_reconnecting _ _ 0%nat x st1 run_opened Hx Hr Hs)
    as (st2 & st3 & st4 & H2 & H3 & H4 & Ha & Hw & _).
  exists st2, st3, st4. by repeat split.
Defined.

Lemma merge_keeps_witness :
  let data := Some (JObj {[ "wifi_signal" := JNull ]}) in
  let old : gmap string jsval := {[ "wifi_signal" := JNum (-42); "state" := JStr "IDLE" ]} in
  nullish (old !! "wifi_signal") = false
  ∧ nullish (merge_printer_status data (Some old) !! "wifi_signal") = false.
Proof.
  intros data old.
  assert (Hn : nullish (old !! "wifi_signal") = false) by (vm_compute; reflexivity).
  split; [exact Hn|].
  exact (proj1 (proj2 (merge_printer_status_keeps_what_is_known data old)) Hn).
Defined.

Lemma handlers_witness :
  Fixture.pong ≠ JNull ∧ (handleMessage Fixture.pong mount).1 = Normal tt.
Proof.
  assert (Hn : Fixture.pong ≠ JNull) by discriminate.
  split; [exact Hn|].
  exact (proj1 (proj2 (proj2 (exceptions_escape_only_from_sendMessage mount))) Fixture.pong Hn).
Defined.
